(** * bdlcc::Cache: a shallow embedding of [bdlcc_cache.h] and its properties

    The component is a key-value cache made of a hash map ([d_map]) from keys
    to pairs of a value handle and an iterator into a list ([d_queue]) that
    records the eviction order.  The embedding keeps both structures and the
    iterators that tie them together:

    - [bsl::unordered_map] is stdpp's [gmap];
    - [bsl::list] is a Rocq list of nodes, each node carrying an identity
      (what a [QueueType::iterator] designates) and the key stored in it;
    - [bsl::size_t] quantities are [N]; the code only compares them;
    - [BSLS_ASSERT] failures and uses of the containers outside their
      contract (front of an empty list, erasing through a dangling iterator)
      end the run: they are the [Abort] outcome of the [Res] monad;
    - the post-eviction callback is a caller-supplied callable: the model
      records every invocation, with its argument, in [d_invoked];
    - an allocation failure inside [insert] is chosen by the caller of the
      model through an [Alloc] argument.

    The reader-writer lock is not modelled: each operation is taken as the
    atomic step it is under the lock.  The manipulators and [size] are
    embedded; [visit], the default constructor and the other accessors are
    not used by the properties below. *)

From stdpp Require Import gmap list fin_maps.

Set Default Proof Using "Type*".

(** ** Outcomes *)

Inductive Res (A : Type) : Type :=
| Ret (a : A)
| Abort.
Arguments Ret {A} a.
Arguments Abort {A}.

(** [Res] is a monad in the sense of stdpp, whose [x ← r; k] notation the
    operations below are written with. *)
#[global] Instance Res_bind : MBind Res := λ A B f r,
  match r with
  | Ret a => f a
  | Abort => Abort
  end.

#[global] Instance Res_ret : MRet Res := λ A a, Ret a.

Module CacheEvictionPolicy.
Inductive Enum : Set :=
| e_LRU   (* Least Recently Used *)
| e_FIFO. (* First In, First Out *)
End CacheEvictionPolicy.

(** How the allocator behaves during one call of [insert]: it serves every
    request, or it fails the request made by [d_queue.push_back], or the one
    made by [d_map.emplace]. *)
Inductive Alloc : Set :=
| alloc_ok
| alloc_fails_push_back
| alloc_fails_emplace.

#[global] Instance Alloc_eq_dec : EqDecision Alloc.
Proof. solve_decision. Defined.

(** How a call of [insert] ends: by returning, or by an exception that
    propagates to the caller after the local objects are destroyed. *)
Inductive Exit : Set :=
| returned
| threw.

#[global] Instance Exit_eq_dec : EqDecision Exit.
Proof. solve_decision. Defined.

(** ** bsl::list with node identities *)

Definition node := nat.

(** The eviction queue type and the value type of the hash map. *)
Abbreviation QueueType KeyType := (list (node * KeyType)).
Abbreviation MapValueType ValuePtrType := (ValuePtrType * node)%type.

Section Queue.
Context {KeyType : Type}.

Local Abbreviation QueueType := (QueueType KeyType).

(** [d_queue.front()]: outside its contract on an empty list. *)
Definition front (q : QueueType) : Res KeyType :=
  match q with
  | [] => Abort
  | (_, k) :: _ => Ret k
  end.

(** The node that [push_back] allocates is none of the nodes in the list. *)
Definition fresh_node (q : QueueType) : node := S (max_list (q.*1)).

Definition push_back (q : QueueType) (k : KeyType) : QueueType :=
  q ++ [(fresh_node q, k)].

(** [d_queue.pop_back()]: outside its contract on an empty list. *)
Definition pop_back (q : QueueType) : Res QueueType :=
  match q with
  | [] => Abort
  | _ :: _ => Ret (removelast q)
  end.

(** [queueItr = d_queue.end(); --queueItr]. *)
Definition last_node (q : QueueType) : Res node :=
  match last q with
  | Some (n, _) => Ret n
  | None => Abort
  end.

(** Taking the node [n] out of the list: its key and the other nodes, in
    their order. *)
Fixpoint unlink (n : node) (q : QueueType) : option (KeyType * QueueType) :=
  match q with
  | [] => None
  | (m, k) :: q' =>
      if decide (m = n) then Some (k, q')
      else
        match unlink n q' with
        | Some (k', r) => Some (k', (m, k) :: r)
        | None => None
        end
  end.

(** [d_queue.erase(itr)]. *)
Definition list_erase (q : QueueType) (itr : node) : Res QueueType :=
  match unlink itr q with
  | Some (_, q') => Ret q'
  | None => Abort
  end.

(** [d_queue.splice(d_queue.end(), d_queue, itr)]: the node moves to the
    back and keeps its identity. *)
Definition splice_end (q : QueueType) (itr : node) : Res QueueType :=
  match unlink itr q with
  | Some (k, q') => Ret (q' ++ [(itr, k)])
  | None => Abort
  end.
End Queue.

(** ** QueueProctor *)

Module QueueProctor.
(** [d_queue_p] is either the address of the monitored queue or null. *)
Record t : Set := Build { d_queue_p : bool }.

Definition ctor : t := {| d_queue_p := true |}.

Definition release (p : t) : t := {| d_queue_p := false |}.

(** The destructor, applied to the monitored queue. *)
Definition dtor {KeyType : Type} (p : t) (q : QueueType KeyType)
  : Res (QueueType KeyType) :=
  if d_queue_p p then pop_back q else Ret q.
End QueueProctor.

(** ** The cache *)

Section Cache.
Context {KeyType : Type} `{Countable KeyType}.
Context {ValuePtrType : Type}.
Context {PostEvictionCallback : Type}.

Local Abbreviation MapValueType := (MapValueType ValuePtrType).
Local Abbreviation MapType := (gmap KeyType MapValueType).

Record Cache : Type := mkCache {
  d_map : MapType;
  d_queue : QueueType KeyType;
  d_evictionPolicy : CacheEvictionPolicy.Enum;
  d_lowWatermark : N;
  d_highWatermark : N;
  d_postEvictionCallback : option PostEvictionCallback;
  (* every invocation of a post-eviction callback so far, oldest first *)
  d_invoked : list (PostEvictionCallback * ValuePtrType)
}.

Definition with_map_queue (c : Cache) (m : MapType)
    (q : QueueType KeyType) : Cache :=
  mkCache m q (d_evictionPolicy c) (d_lowWatermark c) (d_highWatermark c)
          (d_postEvictionCallback c) (d_invoked c).

Definition with_invoked (c : Cache)
    (l : list (PostEvictionCallback * ValuePtrType)) : Cache :=
  mkCache (d_map c) (d_queue c) (d_evictionPolicy c) (d_lowWatermark c)
          (d_highWatermark c) (d_postEvictionCallback c) l.

(** The constructor taking a policy and the two watermarks. *)
Definition Cache_new (evictionPolicy : CacheEvictionPolicy.Enum)
    (lowWatermark highWatermark : N) : Cache :=
  mkCache ∅ [] evictionPolicy lowWatermark highWatermark None [].

Definition size (c : Cache) : N := N.of_nat (base.size (d_map c)).

(** A map iterator: [None] is [d_map.end()], otherwise the entry. *)
Local Abbreviation MapIterator := (option (KeyType * MapValueType)).

Definition find (m : MapType) (key : KeyType) : MapIterator :=
  match m !! key with
  | Some e => Some (key, e)
  | None => None
  end.

(** [d_map.emplace(key, e)] when it does not throw. *)
Definition emplace (m : MapType) (key : KeyType) (e : MapValueType)
  : MapType :=
  match m !! key with
  | Some _ => m
  | None => <[key := e]> m
  end.

(** [if (d_postEvictionCallback) d_postEvictionCallback(value)]. *)
Definition invoke (c : Cache) (value : ValuePtrType) : Cache :=
  match d_postEvictionCallback c with
  | Some f => with_invoked c (d_invoked c ++ [(f, value)])
  | None => c
  end.

Definition evictItem (c : Cache) (mapItr : KeyType * MapValueType)
  : Res Cache :=
  let '(key, (value, queueItr)) := mapItr in
  q ← list_erase (d_queue c) queueItr;
  Ret (invoke (with_map_queue c (delete key (d_map c)) q) value).

(** The condition of the loop of [enforceHighWatermark]. *)
Definition keeps_evicting (c : Cache) : bool :=
  (d_lowWatermark c <=? size c)%N && (0 <? size c)%N.

(** The loop of [enforceHighWatermark].  Every iteration that does not
    abort erases one entry of the map, so [fuel] bounds the iterations
    when it is at least the number of entries
    (see [enforce_loop_fuel]). *)
Fixpoint enforce_loop (fuel : nat) (c : Cache) : Res Cache :=
  if keeps_evicting c then
    match fuel with
    | O => Abort
    | S fuel' =>
        k ← front (d_queue c);
        match find (d_map c) k with
        | None => Abort (* BSLS_ASSERT(mapItr != d_map.end()) *)
        | Some mapItr =>
            c' ← evictItem c mapItr;
            enforce_loop fuel' c'
        end
    end
  else Ret c.

Definition enforceHighWatermark (c : Cache) : Res Cache :=
  if (size c <? d_highWatermark c)%N then Ret c
  else enforce_loop (base.size (d_map c)) c.

(** [insert(key, valuePtr)].  The overload that takes a value makes a
    handle for it and calls this one.  A failed [push_back] leaves the
    queue as it was; a failed [emplace] leaves the map as it was, and the
    exception then runs the destructor of [proctor] before it reaches the
    caller. *)
Definition insert (c : Cache) (key : KeyType) (valuePtr : ValuePtrType)
    (a : Alloc) : Res (Exit * Cache) :=
  c1 ← enforceHighWatermark c;
  match find (d_map c1) key with
  | Some (_, (_, queueItr)) =>
      let m := <[key := (valuePtr, queueItr)]> (d_map c1) in
      q ← splice_end (d_queue c1) queueItr;
      Ret (returned, with_map_queue c1 m q)
  | None =>
      match a with
      | alloc_fails_push_back => Ret (threw, c1)
      | _ =>
          let q1 := push_back (d_queue c1) key in
          let proctor := QueueProctor.ctor in
          queueItr ← last_node q1;
          match a with
          | alloc_fails_emplace =>
              q2 ← QueueProctor.dtor proctor q1;
              Ret (threw, with_map_queue c1 (d_map c1) q2)
          | _ =>
              let m := emplace (d_map c1) key (valuePtr, queueItr) in
              let proctor := QueueProctor.release proctor in
              q2 ← QueueProctor.dtor proctor q1;
              Ret (returned, with_map_queue c1 m q2)
          end
      end
  end.

(** [tryGetValue(value, key, modifyEvictionQueue)]: the status, the
    content of [*value] afterwards and the cache. *)
Definition tryGetValue (c : Cache) (value : ValuePtrType) (key : KeyType)
    (modifyEvictionQueue : bool) : Res (Z * ValuePtrType * Cache) :=
  match find (d_map c) key with
  | None => Ret (1%Z, value, c)
  | Some (_, (v, queueItr)) =>
      match d_evictionPolicy c, modifyEvictionQueue with
      | CacheEvictionPolicy.e_LRU, true =>
          lst ← last_node (d_queue c);
          if decide (lst ≠ queueItr) then
            q ← splice_end (d_queue c) queueItr;
            Ret (0%Z, v, with_map_queue c (d_map c) q)
          else Ret (0%Z, v, c)
      | _, _ => Ret (0%Z, v, c)
      end
  end.

Definition popFront (c : Cache) : Res (Z * Cache) :=
  if (0 <? size c)%N then
    k ← front (d_queue c);
    match find (d_map c) k with
    | None => Abort (* BSLS_ASSERT(mapItr != d_map.end()) *)
    | Some mapItr =>
        c' ← evictItem c mapItr;
        Ret (0%Z, c')
    end
  else Ret (1%Z, c).

Definition erase (c : Cache) (key : KeyType) : Res (Z * Cache) :=
  match find (d_map c) key with
  | None => Ret (1%Z, c)
  | Some mapItr =>
      c' ← evictItem c mapItr;
      Ret (0%Z, c')
  end.

Definition setPostEvictionCallback (c : Cache)
    (postEvictionCallback : option PostEvictionCallback) : Cache :=
  mkCache (d_map c) (d_queue c) (d_evictionPolicy c) (d_lowWatermark c)
          (d_highWatermark c) postEvictionCallback (d_invoked c).

Definition clear (c : Cache) : Cache :=
  with_map_queue c ∅ [].

End Cache.
Arguments Cache : clear implicits.
Arguments Cache KeyType {_ _} ValuePtrType PostEvictionCallback.


(** ** The cache as a list of entries

    A cache whose two structures agree is described by one list: its entries
    in the order of the eviction queue, each with its node, key and value
    handle.  [relist c l] is the cache [c] with the map and the queue that
    describe [l]. *)

Record entry (KeyType ValuePtrType : Type) : Type := Entry {
  e_node : node;
  e_key : KeyType;
  e_value : ValuePtrType
}.
Arguments Entry {KeyType ValuePtrType} e_node e_key e_value.
Arguments e_node {KeyType ValuePtrType} e.
Arguments e_key {KeyType ValuePtrType} e.
Arguments e_value {KeyType ValuePtrType} e.

Section EntryLists.
Context {KeyType : Type} `{Countable KeyType}.
Context {ValuePtrType PostEvictionCallback : Type}.

Local Abbreviation cache := (Cache KeyType ValuePtrType PostEvictionCallback).
Local Abbreviation entries := (list (entry KeyType ValuePtrType)).

Definition queue_of (l : entries) : QueueType KeyType :=
  (λ e, (e_node e, e_key e)) <$> l.

Definition map_of (l : entries) : gmap KeyType (MapValueType ValuePtrType) :=
  list_to_map ((λ e, (e_key e, (e_value e, e_node e))) <$> l).

Definition keys_of (l : entries) : list KeyType := e_key <$> l.
Definition nodes_of (l : entries) : list node := e_node <$> l.
Definition values_of (l : entries) : list ValuePtrType := e_value <$> l.

Definition wf (l : entries) : Prop :=
  NoDup (keys_of l) ∧ NoDup (nodes_of l).

Definition relist (c : cache) (l : entries) : cache :=
  with_map_queue c (map_of l) (queue_of l).

(** [invoke] for each handle of a list, in order. *)
Definition invoke_all (c : cache) (vs : list ValuePtrType) : cache :=
  foldl invoke c vs.

(** The invocations that [invoke_all] adds to the record. *)
Definition calls (c : cache) (vs : list ValuePtrType)
  : list (PostEvictionCallback * ValuePtrType) :=
  match d_postEvictionCallback c with
  | Some f => (λ v, (f, v)) <$> vs
  | None => []
  end.

(** The number of entries that the loop of [enforceHighWatermark] evicts
    from a cache of [n] entries. *)
Definition loop_evictions (c : cache) (n : nat) : nat :=
  n - n `min` N.to_nat (N.pred (d_lowWatermark c)).

(** The number of entries that [enforceHighWatermark] evicts. *)
Definition evictions (c : cache) (n : nat) : nat :=
  if (N.of_nat n <? d_highWatermark c)%N then 0 else loop_evictions c n.

(** The entries that [enforceHighWatermark] evicts, the entries that it
    keeps, and the cache with the invocations of the callback added. *)
Definition evicted (c : cache) (l : entries) : entries :=
  take (evictions c (length l)) l.

Definition kept (c : cache) (l : entries) : entries :=
  drop (evictions c (length l)) l.

Definition enforced (c : cache) (l : entries) : cache :=
  invoke_all c (values_of (evicted c l)).

(** Whether a successful [tryGetValue] moves the entry to the back. *)
Definition moves (c : cache) (modifyEvictionQueue : bool) : bool :=
  match d_evictionPolicy c, modifyEvictionQueue with
  | CacheEvictionPolicy.e_LRU, true => true
  | _, _ => false
  end.

Definition pairs (l : entries) : list (KeyType * ValuePtrType) :=
  (λ e, (e_key e, e_value e)) <$> l.

End EntryLists.

(** ** The statements: the bijection, the reachable states, runs *)

Section Statements.
Context {KeyType : Type} `{Countable KeyType}.
Context {ValuePtrType PostEvictionCallback : Type}.

Local Abbreviation cache := (Cache KeyType ValuePtrType PostEvictionCallback).
Local Abbreviation entries := (list (entry KeyType ValuePtrType)).

(** The nodes of the queue are distinct, no key is in two nodes, the map
    sends a key to an iterator exactly when the node it designates is in
    the queue and holds that key, and [size()] is the length of the
    queue. *)
Definition cache_inv (c : cache) : Prop :=
  NoDup (d_queue c).*1
  ∧ NoDup (d_queue c).*2
  ∧ (∀ k n, (∃ v, d_map c !! k = Some (v, n)) ↔ (n, k) ∈ d_queue c)
  ∧ size c = N.of_nat (length (d_queue c)).

(** The states that a sequence of calls of the manipulators can reach from
    a cache just constructed.  A call of [insert] may end by an exception;
    the state it leaves is reachable too. *)
Inductive reachable : cache → Prop :=
| reach_new policy low high :
    reachable (Cache_new policy low high)
| reach_insert c key valuePtr a x c' :
    reachable c →
    insert c key valuePtr a = Ret (x, c') →
    reachable c'
| reach_tryGetValue c value key modify rc value' c' :
    reachable c →
    tryGetValue c value key modify = Ret (rc, value', c') →
    reachable c'
| reach_popFront c rc c' :
    reachable c →
    popFront c = Ret (rc, c') →
    reachable c'
| reach_erase c key rc c' :
    reachable c →
    erase c key = Ret (rc, c') →
    reachable c'
| reach_clear c :
    reachable c →
    reachable (clear c)
| reach_setPostEvictionCallback c f :
    reachable c →
    reachable (setPostEvictionCallback c f).

(** A cache described by a list of entries, with no key and no node
    twice. *)
Definition described (c : cache) : Prop := ∃ l, wf l ∧ c = relist c l.

(** A call of [insert] that the allocator serves, of [tryGetValue] or of
    [popFront]. *)
Inductive call : Type :=
| call_insert (key : KeyType) (valuePtr : ValuePtrType)
| call_tryGetValue (value : ValuePtrType) (key : KeyType)
                   (modifyEvictionQueue : bool)
| call_popFront.

Definition step (c : cache) (o : call) : Res cache :=
  match o with
  | call_insert key valuePtr =>
      '(_, c') ← insert c key valuePtr alloc_ok; Ret c'
  | call_tryGetValue value key modify =>
      '(_, _, c') ← tryGetValue c value key modify; Ret c'
  | call_popFront =>
      '(_, c') ← popFront c; Ret c'
  end.

Fixpoint run (c : cache) (os : list call) : Res cache :=
  match os with
  | [] => Ret c
  | o :: os' => c' ← step c o; run c' os'
  end.

(** The keys and value handles that a sequence of calls inserts, in the
    order of the calls. *)
Definition inserted (os : list call) : list (KeyType * ValuePtrType) :=
  omap (λ o, match o with
             | call_insert key valuePtr => Some (key, valuePtr)
             | _ => None
             end) os.

(** The keys of the cache with their value handles, from the front of the
    eviction queue to its back. *)
Definition contents (c : cache) : list (KeyType * ValuePtrType) :=
  omap (λ '(_, key), match d_map c !! key with
                     | Some (v, _) => Some (key, v)
                     | None => None
                     end) (d_queue c).

(** An LRU cache with watermarks 2 and 3: insert [A], [B] and [C], read
    [A] with [modifyEvictionQueue = true], insert [D].  The result is the
    cache before and after the last call. *)
Definition lru_read_then_insert (A B C D : KeyType)
    (va vb vc vd value : ValuePtrType) (cb : option PostEvictionCallback)
  : Res (cache * cache) :=
  let c0 := setPostEvictionCallback
              (Cache_new CacheEvictionPolicy.e_LRU 2 3) cb in
  '(_, c1) ← insert c0 A va alloc_ok;
  '(_, c2) ← insert c1 B vb alloc_ok;
  '(_, c3) ← insert c2 C vc alloc_ok;
  '(_, _, c4) ← tryGetValue c3 value A true;
  '(_, c5) ← insert c4 D vd alloc_ok;
  Ret (c4, c5).

End Statements.

Section ScenarioRun.
Context {ValuePtrType PostEvictionCallback : Type}.

(** An LRU cache with watermarks 3 and 4: insert the keys 0, 1, 2, then 1
    again, then 3, then 4.  The result is [size()] after the third, the
    fourth, the fifth and the sixth call, and the final cache. *)
Definition watermark_scenario (v0 v1 v2 v1' v3 v4 : ValuePtrType)
    (cb : option PostEvictionCallback)
  : Res (list N * Cache nat ValuePtrType PostEvictionCallback) :=
  let c0 := setPostEvictionCallback
              (Cache_new CacheEvictionPolicy.e_LRU 3 4) cb in
  '(_, c1) ← insert c0 0 v0 alloc_ok;
  '(_, c2) ← insert c1 1 v1 alloc_ok;
  '(_, c3) ← insert c2 2 v2 alloc_ok;
  '(_, c4) ← insert c3 1 v1' alloc_ok;
  '(_, c5) ← insert c4 3 v3 alloc_ok;
  '(_, c6) ← insert c5 4 v4 alloc_ok;
  Ret ([size c3; size c4; size c5; size c6], c6).

End ScenarioRun.

Local Abbreviation LRU := CacheEvictionPolicy.e_LRU.
Local Abbreviation FIFO := CacheEvictionPolicy.e_FIFO.

(** A cache with watermarks 3 and 4 that holds the keys 7 and 8, and a full
    cache with both watermarks at 1 and a callback. *)
Definition two_entries : Cache nat nat nat :=
  relist (setPostEvictionCallback (Cache_new LRU 3 4) (Some 0))
         [Entry 1 7 70; Entry 2 8 80].

Definition one_entry_full : Cache nat nat nat :=
  relist (setPostEvictionCallback (Cache_new FIFO 1 1) (Some 0))
         [Entry 1 7 70].

(** A cache with watermarks 3 and 4 that has reached the high watermark. *)
Definition four_entries : Cache nat nat nat :=
  relist (setPostEvictionCallback (Cache_new LRU 3 4) (Some 0))
         [Entry 1 5 50; Entry 2 6 60; Entry 3 7 70; Entry 4 8 80].

(** Insertions into a FIFO cache with both watermarks at 2, with reads and
    a [popFront] in between. *)
Definition fifo_calls : list (@call nat nat) :=
  [call_insert 1 10; call_insert 2 20; call_tryGetValue 0 1 true;
   call_insert 3 30; call_tryGetValue 0 3 false; call_popFront;
   call_insert 4 40].

(** ** The default constructor and [visit] *)

Section Rest.
Context {KeyType : Type} `{Countable KeyType}.
Context {ValuePtrType PostEvictionCallback : Type}.

Local Abbreviation cache := (Cache KeyType ValuePtrType PostEvictionCallback).

(** The constructor that takes no watermarks: an LRU cache with both
    watermarks at [bsl::numeric_limits<bsl::size_t>::max()], which is the
    argument [size_t_max] here. *)
Definition Cache_default (size_t_max : N) : cache :=
  mkCache ∅ [] CacheEvictionPolicy.e_LRU size_t_max size_t_max None [].

Context {ValueType VisitorState : Type}.

(** [*valuePtr]: the value that a handle points to, [None] for a null
    handle. *)
Context (deref : ValuePtrType → option ValueType).

(** The loop of [visit], from the node at the front of [q] on.  The
    visitor is an object that a call may change: it gets its state and
    gives back the new one with its answer. *)
Fixpoint visit_from (m : gmap KeyType (MapValueType ValuePtrType))
    (visitor : KeyType → ValueType → VisitorState → bool * VisitorState)
    (q : QueueType KeyType) (s : VisitorState) : Res VisitorState :=
  match q with
  | [] => Ret s
  | (_, key) :: q' =>
      match find m key with
      | None => Abort (* BSLS_ASSERT(mapItr != d_map.end()) *)
      | Some (_, (valuePtr, _)) =>
          match deref valuePtr with
          | None => Abort
          | Some value =>
              let '(continue, s') := visitor key value s in
              if continue then visit_from m visitor q' s' else Ret s'
          end
      end
  end.

(** [visit(visitor)]: the state of the visitor afterwards; the cache is not
    changed. *)
Definition visit (c : cache)
    (visitor : KeyType → ValueType → VisitorState → bool * VisitorState)
    (s : VisitorState) : Res VisitorState :=
  visit_from (d_map c) visitor (d_queue c) s.

End Rest.

(** The elements of a list up to the first one that [p] rejects, that one
    included. *)
Fixpoint take_through {A : Type} (p : A → bool) (l : list A) : list A :=
  match l with
  | [] => []
  | x :: l' => if p x then x :: take_through p l' else [x]
  end.

(** The calls that insert the pairs of a list, in order. *)
Definition insertions {KeyType ValuePtrType : Type}
    (kvs : list (KeyType * ValuePtrType)) : list (@call KeyType ValuePtrType) :=
  (λ kv, call_insert kv.1 kv.2) <$> kvs.

(** * Theorems *)

Section Entries.
Context {KeyType : Type} `{Countable KeyType}.
Context {ValuePtrType PostEvictionCallback : Type}.

Local Abbreviation cache := (Cache KeyType ValuePtrType PostEvictionCallback).
Local Abbreviation entries := (list (entry KeyType ValuePtrType)).

Implicit Types (c : cache) (l : entries) (e : entry KeyType ValuePtrType).

Lemma queue_of_app l1 l2 : queue_of (l1 ++ l2) = queue_of l1 ++ queue_of l2.
Proof. apply fmap_app. Qed.

Lemma queue_of_fst l : (queue_of l).*1 = nodes_of l.
Proof. unfold queue_of, nodes_of. rewrite <- list_fmap_compose. done. Qed.

Lemma queue_of_snd l : (queue_of l).*2 = keys_of l.
Proof. unfold queue_of, keys_of. rewrite <- list_fmap_compose. done. Qed.

Lemma queue_of_length l : length (queue_of l) = length l.
Proof. apply length_fmap. Qed.

Lemma keys_of_app l1 l2 : keys_of (l1 ++ l2) = keys_of l1 ++ keys_of l2.
Proof. apply fmap_app. Qed.

Lemma nodes_of_app l1 l2 : nodes_of (l1 ++ l2) = nodes_of l1 ++ nodes_of l2.
Proof. apply fmap_app. Qed.

Lemma map_of_fst l :
  ((λ e, (e_key e, (e_value e, e_node e))) <$> l).*1 = keys_of l.
Proof. unfold keys_of. rewrite <- list_fmap_compose. done. Qed.

Lemma map_of_nil : map_of ([] : entries) = ∅.
Proof. done. Qed.

Lemma map_of_cons e l :
  map_of (e :: l) = <[e_key e := (e_value e, e_node e)]> (map_of l).
Proof. done. Qed.

Lemma map_of_lookup_None l k : k ∉ keys_of l → map_of l !! k = None.
Proof.
  intros Hk. unfold map_of. apply not_elem_of_list_to_map_1.
  by rewrite map_of_fst.
Qed.

Lemma map_of_lookup_Some l k v n :
  NoDup (keys_of l) →
  map_of l !! k = Some (v, n) ↔ Entry n k v ∈ l.
Proof.
  intros Hnd. unfold map_of.
  rewrite <- elem_of_list_to_map by (by rewrite map_of_fst).
  rewrite list_elem_of_fmap. split.
  - intros ([n' k' v'] & [= -> -> ->] & Hin). done.
  - intros Hin. by exists (Entry n k v).
Qed.

Lemma map_of_lookup_is_Some l k :
  is_Some (map_of l !! k) ↔ k ∈ keys_of l.
Proof.
  destruct (decide (k ∈ keys_of l)) as [Hin|Hnin].
  - split; [done|]. intros _. unfold map_of.
    destruct (list_to_map _ !! k) eqn:E; [done|].
    apply not_elem_of_list_to_map_2 in E. by rewrite map_of_fst in E.
  - rewrite map_of_lookup_None by done. split; [by intros []|done].
Qed.

Lemma map_of_size l : NoDup (keys_of l) → base.size (map_of l) = length l.
Proof.
  intros Hnd. unfold map_of. rewrite map_size_list_to_map.
  - by rewrite length_fmap.
  - by rewrite map_of_fst.
Qed.

(** Appending an entry with a new key is an insertion. *)
Lemma map_of_snoc l e :
  e_key e ∉ keys_of l →
  map_of (l ++ [e]) = <[e_key e := (e_value e, e_node e)]> (map_of l).
Proof.
  intros Hk. unfold map_of. rewrite fmap_app. simpl.
  apply list_to_map_snoc. by rewrite map_of_fst.
Qed.

(** Deleting the key of an entry removes that entry. *)
Lemma map_of_delete l1 e l2 :
  NoDup (keys_of (l1 ++ e :: l2)) →
  delete (e_key e) (map_of (l1 ++ e :: l2)) = map_of (l1 ++ l2).
Proof.
  intros Hnd. rewrite keys_of_app in Hnd. simpl in Hnd.
  apply NoDup_app in Hnd as (Hnd1 & Hdisj & Hnd2).
  apply NoDup_cons in Hnd2 as [Hk2 Hnd2].
  assert (Hk1 : e_key e ∉ keys_of l1).
  { intros Hin. apply (Hdisj _ Hin). left. }
  clear Hdisj Hnd1 Hnd2.
  induction l1 as [|a l1 IH]; simpl.
  - rewrite map_of_cons, delete_insert_eq.
    apply delete_id, map_of_lookup_None, Hk2.
  - rewrite !map_of_cons.
    assert (e_key a ≠ e_key e) as Hne.
    { intros Heq. apply Hk1. rewrite <- Heq. left. }
    rewrite delete_insert_ne by done. f_equal. apply IH.
    intros Hin. apply Hk1. by right.
Qed.

(** Taking the node of an entry out of the queue removes that entry. *)
Lemma unlink_queue_of l1 e l2 :
  e_node e ∉ nodes_of l1 →
  unlink (e_node e) (queue_of (l1 ++ e :: l2))
  = Some (e_key e, queue_of (l1 ++ l2)).
Proof.
  intros Hn. induction l1 as [|a l1 IH]; simpl.
  - by rewrite decide_True.
  - assert (e_node a ≠ e_node e) as Hne.
    { intros Heq. apply Hn. rewrite <- Heq. left. }
    rewrite decide_False by done.
    fold (queue_of (l1 ++ e :: l2)). rewrite IH; [done|].
    intros Hin. apply Hn. by right.
Qed.

Lemma unlink_absent (q : QueueType KeyType) n :
  n ∉ q.*1 → unlink n q = None.
Proof.
  induction q as [|[m k] q IH]; simpl; [done|].
  intros Hn. rewrite decide_False.
  - rewrite IH; [done|]. intros Hin. apply Hn. by right.
  - intros ->. apply Hn. left.
Qed.

Lemma wf_nil : wf ([] : entries).
Proof. split; constructor. Qed.

Lemma wf_remove l1 e l2 : wf (l1 ++ e :: l2) → wf (l1 ++ l2).
Proof.
  unfold wf. rewrite !keys_of_app, !nodes_of_app. simpl.
  intros [Hk Hn]. split.
  - eapply sublist_NoDup; [apply Hk|].
    apply sublist_app; [done|]. by apply sublist_cons.
  - eapply sublist_NoDup; [apply Hn|].
    apply sublist_app; [done|]. by apply sublist_cons.
Qed.

Lemma wf_tail e l : wf (e :: l) → wf l.
Proof. apply (wf_remove []). Qed.

Lemma wf_middle l1 e l2 :
  wf (l1 ++ e :: l2) →
  (e_key e ∉ keys_of (l1 ++ l2)) ∧ (e_node e ∉ nodes_of (l1 ++ l2))
  ∧ (e_node e ∉ nodes_of l1).
Proof.
  unfold wf. rewrite !keys_of_app, !nodes_of_app. simpl.
  intros [Hk Hn].
  apply NoDup_app in Hk as (_ & Hk1 & Hk2).
  apply NoDup_cons in Hk2 as [Hk2 _].
  apply NoDup_app in Hn as (_ & Hn1 & Hn2).
  apply NoDup_cons in Hn2 as [Hn2 _].
  assert (e_key e ∉ keys_of l1) by (intros Hin; apply (Hk1 _ Hin); left).
  assert (e_node e ∉ nodes_of l1) by (intros Hin; apply (Hn1 _ Hin); left).
  rewrite !not_elem_of_app. done.
Qed.

Lemma fresh_node_queue_of l : fresh_node (queue_of l) ∉ nodes_of l.
Proof.
  unfold fresh_node. rewrite queue_of_fst. intros Hin.
  apply max_list_elem_of_le in Hin. lia.
Qed.

Lemma wf_snoc l e :
  wf l → e_key e ∉ keys_of l → e_node e ∉ nodes_of l → wf (l ++ [e]).
Proof.
  unfold wf. rewrite keys_of_app, nodes_of_app. simpl.
  intros [Hk Hn] Hke Hne. split.
  - apply NoDup_app. split_and!; [done| |apply NoDup_singleton].
    intros x Hx ->%list_elem_of_singleton. done.
  - apply NoDup_app. split_and!; [done| |apply NoDup_singleton].
    intros x Hx ->%list_elem_of_singleton. done.
Qed.

End Entries.

(** ** What each operation does to the list of entries *)

Section Operations.
Context {KeyType : Type} `{Countable KeyType}.
Context {ValuePtrType PostEvictionCallback : Type}.

Local Abbreviation cache := (Cache KeyType ValuePtrType PostEvictionCallback).
Local Abbreviation entries := (list (entry KeyType ValuePtrType)).

Implicit Types (c : cache) (l : entries) (e : entry KeyType ValuePtrType).


Lemma relist_relist c l l' : relist (relist c l) l' = relist c l'.
Proof. done. Qed.

Lemma invoke_relist c l v : invoke (relist c l) v = relist (invoke c v) l.
Proof. unfold invoke. simpl. by destruct (d_postEvictionCallback c). Qed.

Lemma invoke_all_relist c l vs :
  invoke_all (relist c l) vs = relist (invoke_all c vs) l.
Proof.
  revert c. induction vs as [|v vs IH]; intros c; simpl; [done|].
  by rewrite invoke_relist, IH.
Qed.

Lemma invoke_low c v : d_lowWatermark (invoke c v) = d_lowWatermark c.
Proof. unfold invoke. by destruct (d_postEvictionCallback c). Qed.

Lemma invoke_high c v : d_highWatermark (invoke c v) = d_highWatermark c.
Proof. unfold invoke. by destruct (d_postEvictionCallback c). Qed.

Lemma invoke_policy c v : d_evictionPolicy (invoke c v) = d_evictionPolicy c.
Proof. unfold invoke. by destruct (d_postEvictionCallback c). Qed.

Lemma invoke_callback c v :
  d_postEvictionCallback (invoke c v) = d_postEvictionCallback c.
Proof. unfold invoke. by destruct (d_postEvictionCallback c) eqn:E. Qed.

Lemma invoke_map c v : d_map (invoke c v) = d_map c.
Proof. unfold invoke. by destruct (d_postEvictionCallback c). Qed.

Lemma invoke_queue c v : d_queue (invoke c v) = d_queue c.
Proof. unfold invoke. by destruct (d_postEvictionCallback c). Qed.

Lemma invoke_invoked c v :
  d_invoked (invoke c v) = d_invoked c ++ calls c [v].
Proof.
  unfold invoke, calls. destruct (d_postEvictionCallback c); simpl; [done|].
  by rewrite app_nil_r.
Qed.

Lemma invoke_all_low c vs :
  d_lowWatermark (invoke_all c vs) = d_lowWatermark c.
Proof.
  revert c. induction vs as [|v vs IH]; intros c; simpl; [done|].
  by rewrite IH, invoke_low.
Qed.

Lemma invoke_all_high c vs :
  d_highWatermark (invoke_all c vs) = d_highWatermark c.
Proof.
  revert c. induction vs as [|v vs IH]; intros c; simpl; [done|].
  by rewrite IH, invoke_high.
Qed.

Lemma invoke_all_policy c vs :
  d_evictionPolicy (invoke_all c vs) = d_evictionPolicy c.
Proof.
  revert c. induction vs as [|v vs IH]; intros c; simpl; [done|].
  by rewrite IH, invoke_policy.
Qed.

Lemma invoke_all_callback c vs :
  d_postEvictionCallback (invoke_all c vs) = d_postEvictionCallback c.
Proof.
  revert c. induction vs as [|v vs IH]; intros c; simpl; [done|].
  by rewrite IH, invoke_callback.
Qed.

Lemma invoke_all_map c vs : d_map (invoke_all c vs) = d_map c.
Proof.
  revert c. induction vs as [|v vs IH]; intros c; simpl; [done|].
  by rewrite IH, invoke_map.
Qed.

Lemma invoke_all_queue c vs : d_queue (invoke_all c vs) = d_queue c.
Proof.
  revert c. induction vs as [|v vs IH]; intros c; simpl; [done|].
  by rewrite IH, invoke_queue.
Qed.

Lemma invoke_all_invoked c vs :
  d_invoked (invoke_all c vs) = d_invoked c ++ calls c vs.
Proof.
  revert c. induction vs as [|v vs IH]; intros c; simpl.
  - unfold calls. destruct (d_postEvictionCallback c); simpl;
      symmetry; apply app_nil_r.
  - rewrite IH, invoke_invoked. unfold calls. rewrite invoke_callback.
    destruct (d_postEvictionCallback c); simpl.
    + by rewrite <- app_assoc.
    + by rewrite !app_nil_r.
Qed.

Lemma invoke_all_app c vs ws :
  invoke_all c (vs ++ ws) = invoke_all (invoke_all c vs) ws.
Proof. apply foldl_app. Qed.

Lemma size_relist c l :
  NoDup (keys_of l) → size (relist c l) = N.of_nat (length l).
Proof. intros Hnd. unfold size. simpl. by rewrite map_of_size. Qed.

Lemma find_present l1 e l2 :
  wf (l1 ++ e :: l2) →
  find (map_of (l1 ++ e :: l2)) (e_key e)
  = Some (e_key e, (e_value e, e_node e)).
Proof.
  intros [Hk _]. unfold find.
  assert (map_of (l1 ++ e :: l2) !! e_key e = Some (e_value e, e_node e))
    as Hl.
  { apply map_of_lookup_Some; [done|].
    destruct e. apply elem_of_app. right. left. }
  by rewrite Hl.
Qed.

Lemma find_absent l k : k ∉ keys_of l → find (map_of l) k = None.
Proof. intros Hk. unfold find. by rewrite map_of_lookup_None. Qed.

Lemma evictItem_relist c l1 e l2 :
  wf (l1 ++ e :: l2) →
  evictItem (relist c (l1 ++ e :: l2)) (e_key e, (e_value e, e_node e))
  = Ret (relist (invoke c (e_value e)) (l1 ++ l2)).
Proof.
  intros Hwf. destruct (wf_middle _ _ _ Hwf) as (_ & _ & Hn).
  unfold evictItem, list_erase. simpl.
  rewrite unlink_queue_of by done. simpl.
  rewrite map_of_delete by apply Hwf.
  by rewrite <- invoke_relist.
Qed.

Lemma keeps_evicting_relist c l :
  NoDup (keys_of l) →
  keeps_evicting (relist c l)
  = (d_lowWatermark c <=? N.of_nat (length l))%N
    && (0 <? N.of_nat (length l))%N.
Proof. intros Hnd. unfold keeps_evicting. by rewrite size_relist. Qed.

Lemma enforce_loop_stop fuel c :
  keeps_evicting c = false → enforce_loop fuel c = Ret c.
Proof. intros Hc. destruct fuel; simpl; by rewrite Hc. Qed.

Lemma enforce_loop_step fuel c e l :
  wf (e :: l) →
  keeps_evicting (relist c (e :: l)) = true →
  enforce_loop (S fuel) (relist c (e :: l))
  = enforce_loop fuel (relist (invoke c (e_value e)) l).
Proof.
  intros Hwf Hc.
  change (enforce_loop (S fuel) (relist c (e :: l)))
    with (if keeps_evicting (relist c (e :: l)) then
            match find (map_of ([] ++ e :: l)) (e_key e) with
            | None => Abort
            | Some mapItr =>
                c' ← evictItem (relist c ([] ++ e :: l)) mapItr;
                enforce_loop fuel c'
            end
          else Ret (relist c (e :: l))).
  rewrite Hc, (find_present [] e l Hwf), (evictItem_relist c [] e l Hwf).
  done.
Qed.

Lemma enforce_loop_relist fuel c l :
  wf l → length l ≤ fuel →
  let j := loop_evictions c (length l) in
  enforce_loop fuel (relist c l)
  = Ret (relist (invoke_all c (values_of (take j l))) (drop j l)).
Proof.
  revert fuel c. induction l as [|e l IH]; intros fuel c Hwf Hfuel.
  - rewrite enforce_loop_stop; [done|].
    rewrite keeps_evicting_relist by constructor. apply andb_false_r.
  - cbv zeta. unfold loop_evictions.
    destruct (keeps_evicting (relist c (e :: l))) eqn:Hc.
    + destruct fuel as [|fuel]; [simpl in Hfuel; lia|].
      rewrite enforce_loop_step by done.
      rewrite keeps_evicting_relist in Hc by apply Hwf.
      apply andb_true_iff in Hc as [Hlow%N.leb_le _].
      change (length (e :: l)) with (S (length l)) in *.
      rewrite IH by (eauto using wf_tail || lia).
      unfold loop_evictions. rewrite invoke_low.
      replace (S (length l)
               - S (length l) `min` N.to_nat (N.pred (d_lowWatermark c)))
        with (S (length l
                 - length l `min` N.to_nat (N.pred (d_lowWatermark c))))
        by lia.
      done.
    + rewrite enforce_loop_stop by done.
      rewrite keeps_evicting_relist in Hc by apply Hwf.
      apply andb_false_iff in Hc as [Hlow%N.leb_gt|H0%N.ltb_ge];
        change (length (e :: l)) with (S (length l)) in *; [|lia].
      replace (S (length l)
               - S (length l) `min` N.to_nat (N.pred (d_lowWatermark c)))
        with 0 by lia.
      done.
Qed.

(** With enough fuel the loop never stops for lack of it: its result does
    not depend on the fuel. *)
Lemma enforce_loop_fuel fuel1 fuel2 c :
  base.size (d_map c) ≤ fuel1 → base.size (d_map c) ≤ fuel2 →
  enforce_loop fuel1 c = enforce_loop fuel2 c.
Proof.
  revert fuel2 c. induction fuel1 as [|fuel1 IH]; intros fuel2 c H1 H2.
  - destruct fuel2; simpl; unfold keeps_evicting, size;
      replace (base.size (d_map c)) with 0 by lia;
      by rewrite andb_false_r.
  - destruct fuel2 as [|fuel2].
    + simpl; unfold keeps_evicting, size;
        replace (base.size (d_map c)) with 0 by lia;
        by rewrite andb_false_r.
    + simpl. destruct (keeps_evicting c); [|done].
      destruct (front (d_queue c)) as [k|]; [|done].
      change (mbind ?f (Ret ?a)) with (f a). cbv beta.
      unfold find. destruct (d_map c !! k) as [[v n]|] eqn:Hk; [|done].
      unfold evictItem.
      destruct (list_erase (d_queue c) n) as [q|]; [|done].
      change (mbind ?f (Ret ?a)) with (f a). cbv beta.
      assert (base.size (delete k (d_map c)) < base.size (d_map c)).
      { rewrite <- (insert_delete_id (d_map c) k (v, n)) at 2 by done.
        rewrite map_size_insert_None by apply lookup_delete_eq. lia. }
      apply IH; rewrite invoke_map; simpl; lia.
Qed.

Lemma bind_Ret {A B : Type} (a : A) (f : A → Res B) : Ret a ≫= f = f a.
Proof. done. Qed.

Lemma wf_drop j l : wf l → wf (drop j l).
Proof.
  intros [Hk Hn]. split.
  - eapply sublist_NoDup; [apply Hk|].
    unfold keys_of. rewrite fmap_drop. apply sublist_drop.
  - eapply sublist_NoDup; [apply Hn|].
    unfold nodes_of. rewrite fmap_drop. apply sublist_drop.
Qed.

Lemma evicted_kept c l : evicted c l ++ kept c l = l.
Proof. apply take_drop. Qed.

Lemma wf_kept c l : wf l → wf (kept c l).
Proof. apply wf_drop. Qed.

Lemma enforceHighWatermark_relist c l :
  wf l →
  enforceHighWatermark (relist c l) = Ret (relist (enforced c l) (kept c l)).
Proof.
  intros Hwf. unfold enforceHighWatermark, enforced, kept, evicted, evictions.
  rewrite size_relist by apply Hwf.
  change (d_highWatermark (relist c l)) with (d_highWatermark c).
  destruct (N.of_nat (length l) <? d_highWatermark c)%N; [done|].
  apply enforce_loop_relist; [done|].
  change (d_map (relist c l)) with (map_of l).
  rewrite map_of_size by apply Hwf. done.
Qed.

Lemma last_node_snoc l e : last_node (queue_of (l ++ [e])) = Ret (e_node e).
Proof.
  unfold last_node. rewrite queue_of_app. simpl. by rewrite last_snoc.
Qed.

Lemma push_back_queue_of l k v :
  push_back (queue_of l) k
  = queue_of (l ++ [Entry (fresh_node (queue_of l)) k v]).
Proof. unfold push_back. by rewrite queue_of_app. Qed.

Lemma pop_back_snoc l e : pop_back (queue_of (l ++ [e])) = Ret (queue_of l).
Proof.
  rewrite queue_of_app. simpl. unfold pop_back.
  destruct (queue_of l ++ [(e_node e, e_key e)]) eqn:E.
  - by destruct (queue_of l).
  - rewrite <- E. by rewrite removelast_last.
Qed.

Lemma emplace_snoc l n k v :
  k ∉ keys_of l →
  emplace (map_of l) k (v, n) = map_of (l ++ [Entry n k v]).
Proof.
  intros Hk. unfold emplace.
  rewrite map_of_lookup_None, map_of_snoc by done. done.
Qed.

(** Moving an entry to the back with a new value handle. *)
Lemma map_of_move l1 e l2 v :
  wf (l1 ++ e :: l2) →
  <[e_key e := (v, e_node e)]> (map_of (l1 ++ e :: l2))
  = map_of (l1 ++ l2 ++ [Entry (e_node e) (e_key e) v]).
Proof.
  intros Hwf. destruct (wf_middle _ _ _ Hwf) as (Hk & _ & _).
  rewrite app_assoc, map_of_snoc by done. simpl.
  rewrite <- (map_of_delete l1 e l2) by apply Hwf.
  by rewrite insert_delete_eq.
Qed.

Lemma splice_end_queue_of l1 e l2 v :
  wf (l1 ++ e :: l2) →
  splice_end (queue_of (l1 ++ e :: l2)) (e_node e)
  = Ret (queue_of (l1 ++ l2 ++ [Entry (e_node e) (e_key e) v])).
Proof.
  intros Hwf. destruct (wf_middle _ _ _ Hwf) as (_ & _ & Hn).
  unfold splice_end. rewrite unlink_queue_of by done.
  by rewrite app_assoc, (queue_of_app (l1 ++ l2)).
Qed.

Lemma wf_move l1 e l2 v :
  wf (l1 ++ e :: l2) → wf (l1 ++ l2 ++ [Entry (e_node e) (e_key e) v]).
Proof.
  intros Hwf. destruct (wf_middle _ _ _ Hwf) as (Hk & Hn & _).
  rewrite app_assoc. apply wf_snoc; [by eapply wf_remove|done|done].
Qed.

(** *** insert *)

Lemma insert_relist_absent c l k v :
  wf l → k ∉ keys_of (kept c l) →
  insert (relist c l) k v alloc_ok
  = Ret (returned,
         relist (enforced c l)
                (kept c l ++ [Entry (fresh_node (queue_of (kept c l))) k v])).
Proof.
  intros Hwf Hk. unfold insert.
  rewrite enforceHighWatermark_relist, bind_Ret by done.
  change (d_map (relist (enforced c l) (kept c l))) with (map_of (kept c l)).
  change (d_queue (relist (enforced c l) (kept c l)))
    with (queue_of (kept c l)).
  rewrite find_absent by done.
  rewrite (push_back_queue_of _ k v), last_node_snoc, bind_Ret.
  cbn [e_node]. rewrite emplace_snoc by done. done.
Qed.

Lemma insert_relist_throw c l k v a :
  wf l → k ∉ keys_of (kept c l) → a ≠ alloc_ok →
  insert (relist c l) k v a = Ret (threw, relist (enforced c l) (kept c l)).
Proof.
  intros Hwf Hk Ha. unfold insert.
  rewrite enforceHighWatermark_relist, bind_Ret by done.
  change (d_map (relist (enforced c l) (kept c l))) with (map_of (kept c l)).
  change (d_queue (relist (enforced c l) (kept c l)))
    with (queue_of (kept c l)).
  rewrite find_absent by done.
  destruct a; [done|done|].
  rewrite (push_back_queue_of _ k v), last_node_snoc, bind_Ret.
  unfold QueueProctor.dtor, QueueProctor.ctor. cbn [QueueProctor.d_queue_p].
  rewrite pop_back_snoc, bind_Ret. done.
Qed.

Lemma insert_relist_present c l l1 e l2 v a :
  wf l → kept c l = l1 ++ e :: l2 →
  insert (relist c l) (e_key e) v a
  = Ret (returned,
         relist (enforced c l)
                (l1 ++ l2 ++ [Entry (e_node e) (e_key e) v])).
Proof.
  intros Hwf Hkept. unfold insert.
  rewrite enforceHighWatermark_relist, bind_Ret by done.
  assert (wf (l1 ++ e :: l2)) as Hwf' by (rewrite <- Hkept; by apply wf_kept).
  rewrite Hkept.
  change (d_map (relist (enforced c l) (l1 ++ e :: l2)))
    with (map_of (l1 ++ e :: l2)).
  change (d_queue (relist (enforced c l) (l1 ++ e :: l2)))
    with (queue_of (l1 ++ e :: l2)).
  rewrite find_present by done.
  rewrite (splice_end_queue_of l1 e l2 v), bind_Ret by done.
  rewrite map_of_move by done. done.
Qed.

(** *** tryGetValue *)

Lemma tryGetValue_absent c value k modify :
  d_map c !! k = None →
  tryGetValue c value k modify = Ret (1%Z, value, c).
Proof. intros Hk. unfold tryGetValue, find. by rewrite Hk. Qed.

Lemma tryGetValue_no_move c value k v n modify :
  d_map c !! k = Some (v, n) → moves c modify = false →
  tryGetValue c value k modify = Ret (0%Z, v, c).
Proof.
  intros Hk Hm. unfold tryGetValue, find. rewrite Hk.
  unfold moves in Hm. by destruct (d_evictionPolicy c), modify.
Qed.

Lemma map_of_touch l1 e l2 :
  wf (l1 ++ e :: l2) → map_of (l1 ++ l2 ++ [e]) = map_of (l1 ++ e :: l2).
Proof.
  intros Hwf.
  pose proof (map_of_move l1 e l2 (e_value e) Hwf) as Hm.
  destruct e as [n k v]. simpl in Hm. rewrite <- Hm.
  apply insert_id, map_of_lookup_Some; [apply Hwf|].
  apply elem_of_app. right. left.
Qed.

Lemma tryGetValue_relist_move c l1 e l2 value modify :
  wf (l1 ++ e :: l2) → moves c modify = true →
  tryGetValue (relist c (l1 ++ e :: l2)) value (e_key e) modify
  = Ret (0%Z, e_value e, relist c (l1 ++ l2 ++ [e])).
Proof.
  intros Hwf Hm. unfold tryGetValue.
  change (d_map (relist c (l1 ++ e :: l2))) with (map_of (l1 ++ e :: l2)).
  change (d_queue (relist c (l1 ++ e :: l2)))
    with (queue_of (l1 ++ e :: l2)).
  change (d_evictionPolicy (relist c (l1 ++ e :: l2)))
    with (d_evictionPolicy c).
  rewrite find_present by done.
  unfold moves in Hm.
  destruct (d_evictionPolicy c); [|done]. destruct modify; [|done].
  destruct l2 as [|x l2 _] using rev_ind.
  - rewrite last_node_snoc, bind_Ret. rewrite decide_False by (by intros ?).
    done.
  - rewrite app_comm_cons, app_assoc, last_node_snoc, bind_Ret.
    rewrite <- app_assoc, <- app_comm_cons.
    rewrite decide_True.
    + rewrite (splice_end_queue_of l1 e (l2 ++ [x]) (e_value e)), bind_Ret
        by done.
      unfold relist. rewrite map_of_touch by done.
      by destruct e.
    + intros Heq. destruct (wf_middle _ _ _ Hwf) as (_ & Hn & _).
      apply Hn. rewrite <- Heq, nodes_of_app, nodes_of_app.
      rewrite !elem_of_app. right. right. left.
Qed.

(** *** popFront *)

Lemma popFront_relist_nil c : popFront (relist c []) = Ret (1%Z, relist c []).
Proof. done. Qed.

Lemma popFront_relist_cons c e l :
  wf (e :: l) →
  popFront (relist c (e :: l)) = Ret (0%Z, relist (invoke c (e_value e)) l).
Proof.
  intros Hwf. unfold popFront. rewrite size_relist by apply Hwf.
  change (0 <? N.of_nat (length (e :: l)))%N with true. cbv iota.
  change (d_queue (relist c (e :: l))) with (queue_of ([] ++ e :: l)).
  change (front (queue_of ([] ++ e :: l))) with (Ret (e_key e)).
  rewrite bind_Ret.
  change (d_map (relist c (e :: l))) with (map_of ([] ++ e :: l)).
  rewrite (find_present [] e l Hwf).
  change (relist c (e :: l)) with (relist c ([] ++ e :: l)).
  rewrite (evictItem_relist c [] e l Hwf). done.
Qed.

(** *** erase *)

Lemma erase_absent c k : d_map c !! k = None → erase c k = Ret (1%Z, c).
Proof. intros Hk. unfold erase, find. by rewrite Hk. Qed.

Lemma erase_relist_present c l1 e l2 :
  wf (l1 ++ e :: l2) →
  erase (relist c (l1 ++ e :: l2)) (e_key e)
  = Ret (0%Z, relist (invoke c (e_value e)) (l1 ++ l2)).
Proof.
  intros Hwf. unfold erase.
  change (d_map (relist c (l1 ++ e :: l2))) with (map_of (l1 ++ e :: l2)).
  rewrite find_present by done.
  rewrite evictItem_relist by done. done.
Qed.

End Operations.

(** ** The bijection between the map and the eviction queue *)

Section Invariant.
Context {KeyType : Type} `{Countable KeyType}.
Context {ValuePtrType PostEvictionCallback : Type}.

Local Abbreviation cache := (Cache KeyType ValuePtrType PostEvictionCallback).
Local Abbreviation entries := (list (entry KeyType ValuePtrType)).

Implicit Types (c : cache) (l : entries) (e : entry KeyType ValuePtrType).


Lemma elem_of_queue_of l n k :
  (n, k) ∈ queue_of l ↔ ∃ v, Entry n k v ∈ l.
Proof.
  unfold queue_of. rewrite list_elem_of_fmap. split.
  - intros ([n' k' v] & [= -> ->] & Hin). by exists v.
  - intros [v Hin]. by exists (Entry n k v).
Qed.

Lemma relist_inv c l : wf l → cache_inv (relist c l).
Proof.
  intros [Hk Hn]. unfold cache_inv.
  change (d_queue (relist c l)) with (queue_of l).
  change (d_map (relist c l)) with (map_of l).
  rewrite queue_of_fst, queue_of_snd, size_relist, queue_of_length by done.
  split_and!; [done|done| |done].
  intros k n. rewrite elem_of_queue_of.
  split; intros [v Hv]; exists v; by apply map_of_lookup_Some.
Qed.

Lemma entries_exist (q : QueueType KeyType)
    (m : gmap KeyType (MapValueType ValuePtrType)) :
  NoDup q.*2 →
  (∀ k n, (∃ v, m !! k = Some (v, n)) ↔ (n, k) ∈ q) →
  ∃ l, queue_of l = q ∧ map_of l = m.
Proof.
  revert m. induction q as [|[n k] q IH]; intros m Hnd Hmq.
  - exists []. split; [done|]. apply map_eq. intros k.
    rewrite map_of_nil, lookup_empty.
    destruct (m !! k) as [[v n]|] eqn:E; [|done].
    assert ((n, k) ∈ @nil (node * KeyType)) as Hin
      by (apply Hmq; by exists v).
    by apply elem_of_nil in Hin.
  - simpl in Hnd. apply NoDup_cons in Hnd as [Hk Hnd].
    destruct (proj2 (Hmq k n)) as [v Hv]; [left|].
    destruct (IH (delete k m) Hnd) as (l & Hq & Hm).
    { intros k' n'. split.
      - intros [v' Hv'].
        apply lookup_delete_Some in Hv' as [Hne Hv'].
        assert ((n', k') ∈ (n, k) :: q) as Hin
          by (apply Hmq; by exists v').
        apply elem_of_cons in Hin as [[= -> ->]|Hin]; done.
      - intros Hin.
        assert (k' ≠ k) as Hne.
        { intros ->. apply Hk. apply list_elem_of_fmap.
          by exists (n', k). }
        destruct (proj2 (Hmq k' n')) as [v' Hv']; [by right|].
        exists v'. by rewrite lookup_delete_ne. }
    exists (Entry n k v :: l). split.
    + simpl. by rewrite <- Hq.
    + rewrite map_of_cons, Hm. simpl. by apply insert_delete_id.
Qed.

Lemma inv_relist c : cache_inv c → ∃ l, wf l ∧ c = relist c l.
Proof.
  intros (Hn & Hk & Hmq & _).
  destruct (entries_exist _ _ Hk Hmq) as (l & Hq & Hm).
  exists l. split.
  - split.
    + by rewrite <- queue_of_snd, Hq.
    + by rewrite <- queue_of_fst, Hq.
  - destruct c. unfold relist, with_map_queue. simpl in *. by subst.
Qed.

Lemma described_relist c l : wf l → described (relist c l).
Proof. intros Hwf. by exists l. Qed.

Lemma described_inv c : described c ↔ cache_inv c.
Proof.
  split.
  - intros (l & Hwf & ->). by apply relist_inv.
  - apply inv_relist.
Qed.

(** Either the key is in no entry, or the list splits around its entry. *)
Lemma key_cases l k :
  k ∉ keys_of l ∨ ∃ l1 e l2, l = l1 ++ e :: l2 ∧ e_key e = k.
Proof.
  destruct (decide (k ∈ keys_of l)) as [Hin|Hnin]; [right|by left].
  apply list_elem_of_fmap in Hin as (e & -> & Hin).
  apply list_elem_of_split in Hin as (l1 & l2 & ->). by exists l1, e, l2.
Qed.

Lemma insert_described c key valuePtr a :
  described c →
  ∃ x c', insert c key valuePtr a = Ret (x, c') ∧ described c'.
Proof.
  intros (l & Hwf & ->).
  destruct (key_cases (kept c l) key) as [Hk|(l1 & e & l2 & Hl & <-)].
  - destruct (decide (a = alloc_ok)) as [->|Ha].
    + eexists _, _. split; [by apply insert_relist_absent|].
      apply described_relist, wf_snoc; [by apply wf_kept|done|].
      apply fresh_node_queue_of.
    + eexists _, _. split; [by apply insert_relist_throw|].
      by apply described_relist, wf_kept.
  - eexists _, _. split; [by eapply insert_relist_present|].
    apply described_relist, wf_move. rewrite <- Hl. by apply wf_kept.
Qed.

Lemma tryGetValue_described c value key modify :
  described c →
  ∃ rc value' c',
    tryGetValue c value key modify = Ret (rc, value', c') ∧ described c'.
Proof.
  intros (l & Hwf & ->).
  destruct (key_cases l key) as [Hk|(l1 & e & l2 & -> & <-)].
  - eexists _, _, _. split.
    + apply tryGetValue_absent. by apply map_of_lookup_None.
    + by apply described_relist.
  - destruct (moves c modify) eqn:Hm.
    + eexists _, _, _. split; [by apply tryGetValue_relist_move|].
      apply described_relist.
      pose proof (wf_move l1 e l2 (e_value e) Hwf) as Hwf'.
      by destruct e.
    + eexists _, _, _. split.
      * eapply tryGetValue_no_move; [|done].
        apply (map_of_lookup_Some _ _ (e_value e) (e_node e));
          [apply Hwf|].
        destruct e. apply elem_of_app. right. left.
      * by apply described_relist.
Qed.

Lemma popFront_described c :
  described c → ∃ rc c', popFront c = Ret (rc, c') ∧ described c'.
Proof.
  intros (l & Hwf & ->). destruct l as [|e l].
  - eexists _, _. split; [apply popFront_relist_nil|].
    by apply described_relist.
  - eexists _, _. split; [by apply popFront_relist_cons|].
    eapply described_relist, wf_tail, Hwf.
Qed.

Lemma erase_described c key :
  described c → ∃ rc c', erase c key = Ret (rc, c') ∧ described c'.
Proof.
  intros (l & Hwf & ->).
  destruct (key_cases l key) as [Hk|(l1 & e & l2 & -> & <-)].
  - eexists _, _. split.
    + apply erase_absent. by apply map_of_lookup_None.
    + by apply described_relist.
  - eexists _, _. split; [by apply erase_relist_present|].
    eapply described_relist, wf_remove, Hwf.
Qed.

Lemma reachable_described c : reachable c → described c.
Proof.
  induction 1 as [policy low high
                 |c key valuePtr a x c' _ IH Hop
                 |c value key modify rc value' c' _ IH Hop
                 |c rc c' _ IH Hop
                 |c key rc c' _ IH Hop
                 |c _ IH
                 |c f _ IH].
  - exists []. split; [apply wf_nil|done].
  - destruct (insert_described c key valuePtr a IH) as (? & ? & Heq & Hd).
    rewrite Hop in Heq. by injection Heq as <- <-.
  - destruct (tryGetValue_described c value key modify IH)
      as (? & ? & ? & Heq & Hd).
    rewrite Hop in Heq. by injection Heq as <- <- <-.
  - destruct (popFront_described c IH) as (? & ? & Heq & Hd).
    rewrite Hop in Heq. by injection Heq as <- <-.
  - destruct (erase_described c key IH) as (? & ? & Heq & Hd).
    rewrite Hop in Heq. by injection Heq as <- <-.
  - exists []. split; [apply wf_nil|done].
  - destruct IH as (l & Hwf & Hc). exists l. split; [done|].
    rewrite Hc at 1. done.
Qed.

End Invariant.

(** ** Properties of the manipulators *)

Section Properties.
Context {KeyType : Type} `{Countable KeyType}.
Context {ValuePtrType PostEvictionCallback : Type}.

Local Abbreviation cache := (Cache KeyType ValuePtrType PostEvictionCallback).
Local Abbreviation entries := (list (entry KeyType ValuePtrType)).

Implicit Types (c : cache) (l : entries) (e : entry KeyType ValuePtrType).


(** C3.  In every state that calls of [insert] (returning or throwing),
    [tryGetValue], [popFront], [erase], [clear] and
    [setPostEvictionCallback] reach from a cache just constructed, the map
    and the eviction queue are in bijection: each key of the map is in
    exactly one node of the queue, the one its iterator designates, each
    node of the queue holds a key of the map, and [size()] is the number
    of entries of both. *)
Theorem reachable_bijection c : reachable c → cache_inv c.
Proof. intros Hr. by apply described_inv, reachable_described. Qed.

(** From a reachable state no manipulator aborts: no assertion fails and
    no container is used outside its contract. *)
Lemma reachable_progress c :
  reachable c →
  (∀ key valuePtr a, ∃ r, insert c key valuePtr a = Ret r)
  ∧ (∀ value key modify, ∃ r, tryGetValue c value key modify = Ret r)
  ∧ (∃ r, popFront c = Ret r)
  ∧ (∀ key, ∃ r, erase c key = Ret r).
Proof.
  intros Hd%reachable_described. split_and!.
  - intros key valuePtr a.
    destruct (insert_described c key valuePtr a Hd) as (? & ? & -> & _).
    by eexists.
  - intros value key modify.
    destruct (tryGetValue_described c value key modify Hd)
      as (? & ? & ? & -> & _).
    by eexists.
  - destruct (popFront_described c Hd) as (? & ? & -> & _). by eexists.
  - intros key. destruct (erase_described c key Hd) as (? & ? & -> & _).
    by eexists.
Qed.

(** C6.  [clear()] leaves the map and the queue empty and [size()] zero,
    and invokes no callback, whatever the cache holds and whether or not
    a callback is set. *)
Theorem clear_silent c :
  d_map (clear c) = ∅
  ∧ d_queue (clear c) = []
  ∧ size (clear c) = 0%N
  ∧ d_invoked (clear c) = d_invoked c
  ∧ d_postEvictionCallback (clear c) = d_postEvictionCallback c.
Proof. by split_and!. Qed.

(** C8.  [erase(key)] on a cache without [key] returns 1 and leaves the
    cache as it is; on a cache with [key] it returns 0, removes the entry
    of [key] from the map and its node from the queue, the other nodes
    keeping their order, and invokes the callback, when one is set, once
    with the value handle of the entry. *)
Theorem erase_law :
  (∀ c key, d_map c !! key = None → erase c key = Ret (1%Z, c))
  ∧ (∀ c key v n,
       cache_inv c → d_map c !! key = Some (v, n) →
       ∃ c' q1 q2,
         erase c key = Ret (0%Z, c')
         ∧ d_map c' = delete key (d_map c)
         ∧ d_queue c = q1 ++ (n, key) :: q2
         ∧ d_queue c' = q1 ++ q2
         ∧ (size c' + 1 = size c)%N
         ∧ d_invoked c'
           = d_invoked c
             ++ match d_postEvictionCallback c with
                | Some f => [(f, v)]
                | None => []
                end
         ∧ cache_inv c').
Proof.
  split; [apply erase_absent|].
  intros c key v n (l & Hwf & ->)%inv_relist Hk.
  change (d_map (relist c l)) with (map_of l) in Hk.
  apply map_of_lookup_Some in Hk; [|apply Hwf].
  apply list_elem_of_split in Hk as (l1 & l2 & ->).
  exists (relist (invoke c v) (l1 ++ l2)), (queue_of l1), (queue_of l2).
  split_and!.
  - apply (erase_relist_present c l1 (Entry n key v) l2 Hwf).
  - symmetry. apply (map_of_delete l1 (Entry n key v) l2), Hwf.
  - apply (queue_of_app l1 (Entry n key v :: l2)).
  - apply (queue_of_app l1 l2).
  - rewrite !size_relist by (apply Hwf || eapply wf_remove, Hwf).
    rewrite !length_app. simpl. lia.
  - exact (invoke_invoked c v).
  - eapply relist_inv, wf_remove, Hwf.
Qed.

Lemma tryGetValue_relist_last c l e value modify :
  wf (l ++ [e]) →
  tryGetValue (relist c (l ++ [e])) value (e_key e) modify
  = Ret (0%Z, e_value e, relist c (l ++ [e])).
Proof.
  intros Hwf. destruct (moves (relist c (l ++ [e])) modify) eqn:Hm.
  - apply (tryGetValue_relist_move c l e [] value modify Hwf Hm).
  - eapply tryGetValue_no_move; [|done].
    apply (map_of_lookup_Some _ _ (e_value e) (e_node e)); [apply Hwf|].
    destruct e. apply elem_of_app. right. left.
Qed.

(** C9.  From a cache whose map and queue are in bijection,
    [insert(key, valuePtr)] returns when the allocator serves it, and
    whenever it returns, [tryGetValue] for [key] on the state it left
    returns 0 and loads [valuePtr], whatever [modifyEvictionQueue], the
    policy and the watermarks are. *)
Theorem insert_tryGetValue c key valuePtr :
  cache_inv c →
  (∃ c1, insert c key valuePtr alloc_ok = Ret (returned, c1))
  ∧ (∀ a c1 value modify,
       insert c key valuePtr a = Ret (returned, c1) →
       tryGetValue c1 value key modify = Ret (0%Z, valuePtr, c1)).
Proof.
  intros (l & Hwf & ->)%inv_relist.
  destruct (key_cases (kept c l) key) as [Hk|(l1 & e & l2 & Hl & <-)].
  - split.
    + eexists. by apply insert_relist_absent.
    + intros a c1 value modify Hins.
      destruct (decide (a = alloc_ok)) as [->|Ha].
      * rewrite insert_relist_absent in Hins by done.
        injection Hins as <-.
        apply (tryGetValue_relist_last _ _ (Entry _ key valuePtr)).
        apply wf_snoc; [by apply wf_kept|done|apply fresh_node_queue_of].
      * rewrite insert_relist_throw in Hins by done. done.
  - assert (wf (l1 ++ e :: l2)) as Hwf'
      by (rewrite <- Hl; by apply wf_kept).
    split.
    + eexists. by eapply insert_relist_present.
    + intros a c1 value modify Hins.
      rewrite (insert_relist_present c l l1 e l2) in Hins by done.
      injection Hins as <-. rewrite app_assoc.
      apply (tryGetValue_relist_last _ _ (Entry _ (e_key e) valuePtr)).
      rewrite <- app_assoc. by apply wf_move.
Qed.

(** C7.  From a cache whose map and queue are in bijection, when [key] is
    not in the map after the watermark pass and [d_map.emplace] fails,
    [insert] ends by the exception in the state that the watermark pass
    left: the node pushed on the queue is removed again, the map is as
    before the push, [key] is in neither, and the bijection holds.  When
    the allocator serves the call, the same push stays and the map gets
    the entry. *)
Theorem insert_rollback c key valuePtr :
  cache_inv c →
  ∃ c1,
    enforceHighWatermark c = Ret c1
    ∧ cache_inv c1
    ∧ (d_map c1 !! key = None →
       insert c key valuePtr alloc_fails_emplace = Ret (threw, c1)
       ∧ (key ∉ (d_queue c1).*2)
       ∧ ∃ c2,
           insert c key valuePtr alloc_ok = Ret (returned, c2)
           ∧ d_queue c2 = push_back (d_queue c1) key
           ∧ d_map c2
             = <[key := (valuePtr, fresh_node (d_queue c1))]> (d_map c1)
           ∧ cache_inv c2).
Proof.
  intros (l & Hwf & ->)%inv_relist.
  exists (relist (enforced c l) (kept c l)). split_and!.
  - by apply enforceHighWatermark_relist.
  - by apply relist_inv, wf_kept.
  - change (d_map (relist (enforced c l) (kept c l)))
      with (map_of (kept c l)).
    change (d_queue (relist (enforced c l) (kept c l)))
      with (queue_of (kept c l)).
    intros Hnone.
    assert (key ∉ keys_of (kept c l)) as Hk.
    { intros Hin%map_of_lookup_is_Some. rewrite Hnone in Hin.
      by destruct Hin. }
    split_and!.
    + by apply insert_relist_throw.
    + by rewrite queue_of_snd.
    + eexists. split_and!.
      * by apply insert_relist_absent.
      * symmetry. apply push_back_queue_of.
      * apply (map_of_snoc _ (Entry _ key valuePtr)), Hk.
      * apply relist_inv, wf_snoc;
          [by apply wf_kept|done|apply fresh_node_queue_of].
Qed.

(** The watermark pass either leaves a cache below the high watermark
    alone, or cuts it down to one entry less than the low watermark, or to
    nothing. *)
Lemma kept_cases c l :
  ((N.of_nat (length l) < d_highWatermark c)%N
   ∧ kept c l = l ∧ evicted c l = [])
  ∨ ((d_highWatermark c ≤ N.of_nat (length l))%N
     ∧ length (kept c l)
       = length l `min` N.to_nat (N.pred (d_lowWatermark c))
     ∧ evictions c (length l) = loop_evictions c (length l)).
Proof.
  unfold kept, evicted, evictions.
  destruct (N.of_nat (length l) <? d_highWatermark c)%N eqn:Hh.
  - left. apply N.ltb_lt in Hh. done.
  - right. apply N.ltb_ge in Hh. split_and!; [done| |done].
    rewrite length_drop. unfold loop_evictions. lia.
Qed.

(** C2, as the code has it.  From a cache whose map and queue are in
    bijection and whose watermarks satisfy [1 <= low <= high], a call of
    [insert] ends, and in the state it leaves [size() <= highWatermark];
    the watermark pass that it starts with leaves the cache alone when
    [size() < highWatermark] and otherwise evicts until
    [size() < lowWatermark]. *)
Theorem watermark_law c key valuePtr a :
  cache_inv c →
  (1 ≤ d_lowWatermark c)%N →
  (d_lowWatermark c ≤ d_highWatermark c)%N →
  ∃ c1 x c',
    enforceHighWatermark c = Ret c1
    ∧ insert c key valuePtr a = Ret (x, c')
    ∧ (size c' ≤ d_highWatermark c)%N
    ∧ ((size c < d_highWatermark c)%N → c1 = c)
    ∧ ((d_highWatermark c ≤ size c)%N → (size c1 < d_lowWatermark c)%N).
Proof.
  intros (l & Hwf & ->)%inv_relist.
  change (d_lowWatermark (relist c l)) with (d_lowWatermark c).
  change (d_highWatermark (relist c l)) with (d_highWatermark c).
  intros Hlow Hhigh.
  pose proof (wf_kept c l Hwf) as Hwfk.
  assert (N.of_nat (length (kept c l)) ≤ d_highWatermark c
          ∧ (N.of_nat (S (length (kept c l))) ≤ d_highWatermark c))%N
    as [Hle HleS].
  { destruct (kept_cases c l) as [(? & -> & _)|(? & -> & _)]; lia. }
  exists (relist (enforced c l) (kept c l)).
  assert (∃ x c', insert (relist c l) key valuePtr a = Ret (x, c')
                  ∧ (size c' ≤ d_highWatermark c)%N) as (x & c' & Hins & Hs).
  { destruct (key_cases (kept c l) key) as [Hk|(l1 & e & l2 & Hl & <-)].
    - destruct (decide (a = alloc_ok)) as [->|Ha].
      + eexists _, _. split; [by apply insert_relist_absent|].
        rewrite size_relist.
        * rewrite length_app. simpl. lia.
        * apply wf_snoc; [done|done|apply fresh_node_queue_of].
      + eexists _, _. split; [by apply insert_relist_throw|].
        rewrite size_relist by apply Hwfk. done.
    - eexists _, _. split; [by eapply insert_relist_present|].
      rewrite Hl in Hwfk, Hle.
      rewrite size_relist by (by apply wf_move).
      assert (length (l1 ++ l2 ++ [Entry (e_node e) (e_key e) valuePtr])
              = length (l1 ++ e :: l2)) as ->; [|done].
      rewrite !length_app. simpl. lia. }
  exists x, c'. split_and!; [by apply enforceHighWatermark_relist|done|done| |].
  - rewrite size_relist by apply Hwf. intros Hlt.
    unfold enforced.
    destruct (kept_cases c l) as [(_ & -> & ->)|(? & _)]; [done|lia].
  - rewrite !size_relist by (apply Hwf || apply Hwfk). intros Hge.
    destruct (kept_cases c l) as [(? & _)|(_ & -> & _)]; lia.
Qed.

(** An [insert] of the key at the front of a cache that has reached its
    high watermark: the watermark pass evicts the entry of the key and
    gives its value handle to the callback before the lookup, which then
    does not find the key, so that the key gets a new node at the back
    and a new entry. *)
Lemma insert_evicts_own_key c key v_old n valuePtr f :
  cache_inv c →
  (d_highWatermark c ≤ size c)%N →
  (d_lowWatermark c ≤ size c)%N →
  front (d_queue c) = Ret key →
  d_map c !! key = Some (v_old, n) →
  d_postEvictionCallback c = Some f →
  ∃ c1 c2 rest,
    enforceHighWatermark c = Ret c1
    ∧ d_map c1 !! key = None
    ∧ d_invoked c1 = d_invoked c ++ (f, v_old) :: rest
    ∧ insert c key valuePtr alloc_ok = Ret (returned, c2)
    ∧ d_queue c2 = push_back (d_queue c1) key
    ∧ d_map c2 = <[key := (valuePtr, fresh_node (d_queue c1))]> (d_map c1)
    ∧ d_invoked c2 = d_invoked c1.
Proof.
  intros (l & Hwf & ->)%inv_relist.
  rewrite size_relist by apply Hwf.
  change (d_lowWatermark (relist c l)) with (d_lowWatermark c).
  change (d_highWatermark (relist c l)) with (d_highWatermark c).
  change (d_queue (relist c l)) with (queue_of l).
  change (d_map (relist c l)) with (map_of l).
  change (d_postEvictionCallback (relist c l))
    with (d_postEvictionCallback c).
  change (d_invoked (relist c l)) with (d_invoked c).
  intros Hhigh Hlow Hfront Hmap Hcb.
  destruct l as [|e l]; [done|].
  destruct e as [n' k' v']. simpl in Hfront. injection Hfront as ->.
  apply map_of_lookup_Some in Hmap; [|apply Hwf].
  assert (key ∉ keys_of l) as Hkl.
  { destruct Hwf as [Hk _]. simpl in Hk. by apply NoDup_cons in Hk as [? _]. }
  apply elem_of_cons in Hmap as [[= -> ->]|Hin].
  2:{ exfalso. apply Hkl, list_elem_of_fmap. by eexists (Entry n key v_old). }
  assert (∃ j, evictions c (length (Entry n' key v' :: l)) = S j)
    as [j Hj].
  { destruct (kept_cases c (Entry n' key v' :: l))
      as [(? & _)|(_ & _ & ->)]; [lia|].
    unfold loop_evictions.
    change (length (Entry n' key v' :: l)) with (S (length l)) in *.
    exists (length l - length l `min` N.to_nat (N.pred (d_lowWatermark c))).
    lia. }
  assert (kept c (Entry n' key v' :: l) = drop j l) as Hkept
    by (unfold kept; by rewrite Hj).
  assert (evicted c (Entry n' key v' :: l) = Entry n' key v' :: take j l)
    as Hev by (unfold evicted; by rewrite Hj).
  assert (key ∉ keys_of (drop j l)) as Hkd.
  { intros Hin. apply Hkl. unfold keys_of in *. rewrite fmap_drop in Hin.
    by eapply subseteq_drop. }
  assert (d_invoked (enforced c (Entry n' key v' :: l))
          = d_invoked c
            ++ (f, v') :: ((λ v, (f, v)) <$> values_of (take j l)))
    as Hinv.
  { unfold enforced. rewrite invoke_all_invoked, Hev. unfold calls.
    by rewrite Hcb. }
  eexists _, _, _. split_and!.
  - by apply enforceHighWatermark_relist.
  - rewrite Hkept. by apply map_of_lookup_None.
  - apply Hinv.
  - apply insert_relist_absent; [done|]. by rewrite Hkept.
  - symmetry. apply push_back_queue_of.
  - apply (map_of_snoc _ (Entry _ key valuePtr)). by rewrite Hkept.
  - done.
Qed.

(** The same with both watermarks at 1 and a cache that holds only the
    key. *)
Lemma insert_replaces_at_one policy key v valuePtr f :
  let c0 : cache :=
    setPostEvictionCallback (Cache_new policy 1 1) (Some f) in
  ∃ c1 c2 n,
    insert c0 key v alloc_ok = Ret (returned, c1)
    ∧ size c1 = 1%N
    ∧ d_invoked c1 = []
    ∧ insert c1 key valuePtr alloc_ok = Ret (returned, c2)
    ∧ d_invoked c2 = [(f, v)]
    ∧ d_map c2 !! key = Some (valuePtr, n)
    ∧ size c2 = 1%N.
Proof.
  intros c0.
  assert (wf [Entry 1 key v]) as Hwf1.
  { apply (wf_snoc [] (Entry 1 key v)); [apply wf_nil| |]; apply not_elem_of_nil. }
  assert (wf [Entry 1 key valuePtr]) as Hwf2.
  { apply (wf_snoc [] (Entry 1 key valuePtr)); [apply wf_nil| |];
      apply not_elem_of_nil. }
  exists (relist c0 [Entry 1 key v]),
         (relist (invoke c0 v) [Entry 1 key valuePtr]), 1.
  split_and!.
  - apply (insert_relist_absent c0 [] key v wf_nil). apply not_elem_of_nil.
  - by rewrite size_relist by apply Hwf1.
  - done.
  - apply (insert_relist_absent c0 [Entry 1 key v] key valuePtr Hwf1).
    apply not_elem_of_nil.
  - done.
  - apply (map_of_lookup_Some [Entry 1 key valuePtr]); [apply Hwf2|left].
  - by rewrite size_relist by apply Hwf2.
Qed.

(** C10.  When [size() >= highWatermark] and the key given to [insert] is
    in the cache, at the front of the queue, the watermark pass runs
    before the lookup and evicts the entry of the key, giving its old
    value handle to the callback; the key is then added as a new entry at
    the back of the queue.  With both watermarks at 1 and a cache that
    holds only the key, [insert] invokes the callback with the old value
    handle of the key, and the key is in the cache afterwards. *)
Theorem insert_full_evicts_key :
  (∀ c key v_old n valuePtr f,
     cache_inv c →
     (d_highWatermark c ≤ size c)%N →
     (d_lowWatermark c ≤ size c)%N →
     front (d_queue c) = Ret key →
     d_map c !! key = Some (v_old, n) →
     d_postEvictionCallback c = Some f →
     ∃ c1 c2 rest,
       enforceHighWatermark c = Ret c1
       ∧ d_map c1 !! key = None
       ∧ d_invoked c1 = d_invoked c ++ (f, v_old) :: rest
       ∧ insert c key valuePtr alloc_ok = Ret (returned, c2)
       ∧ d_queue c2 = push_back (d_queue c1) key
       ∧ d_map c2
         = <[key := (valuePtr, fresh_node (d_queue c1))]> (d_map c1)
       ∧ d_invoked c2 = d_invoked c1)
  ∧ (∀ policy key v valuePtr f,
       let c0 : cache :=
         setPostEvictionCallback (Cache_new policy 1 1) (Some f) in
       ∃ c1 c2 n,
         insert c0 key v alloc_ok = Ret (returned, c1)
         ∧ size c1 = 1%N
         ∧ d_invoked c1 = []
         ∧ insert c1 key valuePtr alloc_ok = Ret (returned, c2)
         ∧ d_invoked c2 = [(f, v)]
         ∧ d_map c2 !! key = Some (valuePtr, n)
         ∧ size c2 = 1%N).
Proof.
  split.
  - apply insert_evicts_own_key.
  - apply insert_replaces_at_one.
Qed.

End Properties.

(** ** Sequences of calls and the order of eviction *)

Section Orders.
Context {KeyType : Type} `{Countable KeyType}.
Context {ValuePtrType PostEvictionCallback : Type}.

Local Abbreviation cache := (Cache KeyType ValuePtrType PostEvictionCallback).
Local Abbreviation entries := (list (entry KeyType ValuePtrType)).

Implicit Types (c : cache) (l : entries) (e : entry KeyType ValuePtrType).


Lemma pairs_snd l : (pairs l).*2 = values_of l.
Proof. unfold pairs, values_of. by rewrite <- list_fmap_compose. Qed.

Lemma pairs_app l1 l2 : pairs (l1 ++ l2) = pairs l1 ++ pairs l2.
Proof. apply fmap_app. Qed.

Lemma contents_relist c l : wf l → contents (relist c l) = pairs l.
Proof.
  intros [Hk _]. unfold contents.
  change (d_queue (relist c l)) with (queue_of l).
  change (d_map (relist c l)) with (map_of l).
  assert (∀ e, e ∈ l → map_of l !! e_key e = Some (e_value e, e_node e))
    as Hl.
  { intros [n k v] Hin. by apply map_of_lookup_Some. }
  revert Hl. generalize (map_of l). clear Hk.
  induction l as [|e l IH]; intros m Hm; [done|].
  simpl. rewrite (Hm e) by left. simpl. f_equal.
  apply IH. intros e' Hin. apply Hm. by right.
Qed.

Lemma tryGetValue_FIFO c value key modify :
  d_evictionPolicy c = CacheEvictionPolicy.e_FIFO →
  ∃ rc value', tryGetValue c value key modify = Ret (rc, value', c).
Proof.
  intros Hp. destruct (d_map c !! key) as [[v n]|] eqn:Hk.
  - eexists _, _. eapply tryGetValue_no_move; [done|].
    unfold moves. by rewrite Hp.
  - eexists _, _. by apply tryGetValue_absent.
Qed.

(** A FIFO cache described by [l], run through calls that insert keys
    neither in [l] nor twice: the entries that leave are a prefix of the
    entries of [l] followed by the inserted ones, the cache keeps the
    rest in that order, and the callback is invoked for the entries of
    the prefix in that order. *)
Lemma run_fifo os :
  ∀ c l,
    wf l →
    d_evictionPolicy c = CacheEvictionPolicy.e_FIFO →
    NoDup (keys_of l ++ (inserted os).*1) →
    ∃ l' gone,
      run (relist c l) os = Ret (relist (invoke_all c (gone.*2)) l')
      ∧ wf l'
      ∧ pairs l ++ inserted os = gone ++ pairs l'.
Proof.
  induction os as [|o os IH]; intros c l Hwf Hp Hnd.
  - exists l, []. split_and!; [done|done|]. simpl. by rewrite app_nil_r.
  - destruct o as [key valuePtr|value key modify|].
    + simpl in Hnd.
      assert (key ∉ keys_of l) as Hkl.
      { apply NoDup_app in Hnd as (_ & Hd & _). intros Hin.
        apply (Hd _ Hin). left. }
      assert (key ∉ keys_of (kept c l)) as Hkk.
      { intros Hin. apply Hkl. unfold keys_of, kept in *.
        rewrite fmap_drop in Hin. by eapply subseteq_drop. }
      set (e := Entry (fresh_node (queue_of (kept c l))) key valuePtr).
      destruct (IH (enforced c l) (kept c l ++ [e])) as (l' & gone & Hrun & Hwf' & Heq).
      { apply wf_snoc; [by apply wf_kept|done|apply fresh_node_queue_of]. }
      { unfold enforced. by rewrite invoke_all_policy. }
      { rewrite keys_of_app, <- app_assoc. simpl.
        eapply sublist_NoDup; [apply Hnd|].
        apply sublist_app; [|done].
        unfold keys_of, kept. rewrite fmap_drop. apply sublist_drop. }
      exists l', (pairs (evicted c l) ++ gone). split_and!; [|done|].
      * simpl. rewrite insert_relist_absent by done. simpl.
        fold e. rewrite Hrun. unfold enforced.
        by rewrite fmap_app, invoke_all_app, pairs_snd.
      * simpl. rewrite <- (evicted_kept c l) at 1.
        rewrite pairs_app, <- !app_assoc. f_equal.
        rewrite <- Heq, pairs_app, <- app_assoc. done.
    + destruct (tryGetValue_FIFO (relist c l) value key modify Hp)
        as (rc & value' & Hget).
      destruct (IH c l Hwf Hp Hnd) as (l' & gone & Hrun & Hwf' & Heq).
      exists l', gone. split_and!; [|done|done].
      simpl. rewrite Hget. simpl. done.
    + destruct l as [|e l].
      * destruct (IH c [] Hwf Hp Hnd) as (l' & gone & Hrun & Hwf' & Heq).
        exists l', gone. split_and!; [|done|done].
        simpl. rewrite popFront_relist_nil. done.
      * destruct (IH (invoke c (e_value e)) l) as (l' & gone & Hrun & Hwf' & Heq).
        { by eapply wf_tail. }
        { by rewrite invoke_policy. }
        { simpl in Hnd. by apply NoDup_cons in Hnd as [_ ?]. }
        exists l', ((e_key e, e_value e) :: gone). split_and!; [|done|].
        -- simpl. rewrite popFront_relist_cons by done. simpl. done.
        -- simpl. by rewrite <- Heq.
Qed.

(** C5.  A FIFO cache just constructed, with any watermarks and any
    callback, run through any sequence of calls of [insert] with distinct
    keys, of [tryGetValue] with any key and any [modifyEvictionQueue],
    and of [popFront]: every call returns; the entries that have left the
    cache are a prefix of the inserted ones in the order of insertion,
    the cache holds the others in that order from the front of the queue
    to its back, and the callback, when one is set, has been invoked with
    the value handles of that prefix, in that order. *)
Theorem fifo_order low high cb os :
  NoDup (inserted os).*1 →
  let c0 : cache :=
    setPostEvictionCallback
      (Cache_new CacheEvictionPolicy.e_FIFO low high) cb in
  ∃ c gone,
    run c0 os = Ret c
    ∧ inserted os = gone ++ contents c
    ∧ d_invoked c
      = match cb with
        | Some f => (λ kv, (f, kv.2)) <$> gone
        | None => []
        end.
Proof.
  intros Hnd c0.
  destruct (run_fifo os c0 [] wf_nil eq_refl Hnd)
    as (l' & gone & Hrun & Hwf' & Heq).
  exists (relist (invoke_all c0 gone.*2) l'), gone. split_and!.
  - done.
  - by rewrite contents_relist.
  - change (d_invoked (relist (invoke_all c0 gone.*2) l'))
      with (d_invoked (invoke_all c0 gone.*2)).
    rewrite invoke_all_invoked. unfold calls. simpl.
    destruct cb; [|done]. by rewrite <- list_fmap_compose.
Qed.

End Orders.

(** ** The LRU order *)

Section LRU.
Context {KeyType : Type} `{Countable KeyType}.
Context {ValuePtrType PostEvictionCallback : Type}.

Local Abbreviation cache := (Cache KeyType ValuePtrType PostEvictionCallback).

(** C4.  In an LRU cache with low watermark 2 and high watermark 3, after
    the insertion of distinct keys [A], [B], [C] and a read of [A] that
    may modify the queue, [A] is at the back of the queue; the insertion
    of a new key [D] then evicts [B] first (and [C] after it), and [A] is
    still in the cache with its value. *)
Theorem lru_order (A B C D : KeyType) (va vb vc vd value : ValuePtrType)
    (cb : option PostEvictionCallback) :
  NoDup [A; B; C; D] →
  ∃ c4 c5 : cache,
    lru_read_then_insert A B C D va vb vc vd value cb = Ret (c4, c5)
    ∧ (d_queue c4).*2 = [B; C; A]
    ∧ (d_queue c5).*2 = [A; D]
    ∧ d_map c5 !! B = None
    ∧ (∃ n, d_map c5 !! A = Some (va, n))
    ∧ d_invoked c5
      = match cb with
        | Some f => [(f, vb); (f, vc)]
        | None => []
        end.
Proof.
  intros Hnd.
  rewrite !NoDup_cons, !not_elem_of_cons in Hnd.
  destruct Hnd as ((HAB & HAC & HAD & _) & (HBC & HBD & _) & (HCD & _) & _).
  set (c0 := setPostEvictionCallback
               (Cache_new CacheEvictionPolicy.e_LRU 2 3) cb : cache).
  set (eA := Entry 1 A va). set (eB := Entry 2 B vb).
  set (eC := Entry 3 C vc). set (eD := Entry 2 D vd).
  assert (wf [eA; eB; eC]) as Hwf3.
  { split; simpl; rewrite !NoDup_cons, !not_elem_of_cons;
      split_and!; try done; try apply not_elem_of_nil; apply NoDup_nil_2. }
  assert (wf [eB; eC; eA]) as Hwf3'.
  { split; simpl; rewrite !NoDup_cons, !not_elem_of_cons;
      split_and!; try done; try apply not_elem_of_nil; apply NoDup_nil_2. }
  assert (wf [eA; eD]) as Hwf2.
  { split; simpl; rewrite !NoDup_cons, !not_elem_of_cons;
      split_and!; try done; try apply not_elem_of_nil; apply NoDup_nil_2. }
  assert (wf [eA; eB]) as Hwf2' by apply (wf_remove [eA; eB] eC [] Hwf3).
  assert (wf [eA]) as Hwf1 by apply (wf_remove [eA] eB [] Hwf2').
  exists (relist c0 [eB; eC; eA]), (relist (invoke_all c0 [vb; vc]) [eA; eD]).
  split_and!.
  - unfold lru_read_then_insert. fold c0.
    change (insert c0 A va alloc_ok)
      with (insert (relist c0 []) A va alloc_ok).
    rewrite (insert_relist_absent c0 [] A va wf_nil)
      by apply not_elem_of_nil.
    rewrite bind_Ret.
    change (relist (enforced c0 []) _) with (relist c0 [eA]).
    rewrite (insert_relist_absent c0 [eA] B vb Hwf1)
      by (simpl; rewrite not_elem_of_cons; split;
          [done|apply not_elem_of_nil]).
    rewrite bind_Ret.
    change (relist (enforced c0 [eA]) _) with (relist c0 [eA; eB]).
    rewrite (insert_relist_absent c0 [eA; eB] C vc Hwf2')
      by (simpl; rewrite !not_elem_of_cons; split_and!;
          [done|done|apply not_elem_of_nil]).
    rewrite bind_Ret.
    change (relist (enforced c0 [eA; eB]) _) with (relist c0 [eA; eB; eC]).
    assert (tryGetValue (relist c0 [eA; eB; eC]) value A true
            = Ret (0%Z, va, relist c0 [eB; eC; eA])) as ->
      by exact (tryGetValue_relist_move c0 [] eA [eB; eC] value true
                  Hwf3 eq_refl).
    rewrite bind_Ret.
    rewrite (insert_relist_absent c0 [eB; eC; eA] D vd Hwf3')
      by (simpl; rewrite !not_elem_of_cons; split_and!;
          [done|apply not_elem_of_nil]).
    done.
  - done.
  - done.
  - apply map_of_lookup_None. simpl.
    rewrite !not_elem_of_cons. split_and!; [done|done|apply not_elem_of_nil].
  - exists 1. apply (map_of_lookup_Some [eA; eD]); [apply Hwf2|left].
  - change (d_invoked (relist (invoke_all c0 [vb; vc]) [eA; eD]))
      with (d_invoked (invoke_all c0 [vb; vc])).
    rewrite invoke_all_invoked. unfold calls. simpl. by destruct cb.
Qed.

End LRU.

(** ** The scenario of the usage example, with a repeated insertion *)

Section Scenario.
Context {ValuePtrType PostEvictionCallback : Type}.

(** C1, as the code has it.  The sizes are 3, 3, 4 and 3.  The second
    insertion of key 1 moves it to the back of the queue, so the last
    call evicts the keys 0 and 2: the final cache holds the keys 1, 3 and
    4, in that order in the queue, key 1 with its second value, and the
    callback, when one is set, got the values of the keys 0 and 2. *)
Theorem watermark_scenario_result (v0 v1 v2 v1' v3 v4 : ValuePtrType)
    (cb : option PostEvictionCallback) :
  ∃ c,
    watermark_scenario v0 v1 v2 v1' v3 v4 cb = Ret ([3; 3; 4; 3]%N, c)
    ∧ dom (d_map c) = ({[1; 3; 4]} : gset nat)
    ∧ (d_queue c).*2 = [1; 3; 4]
    ∧ (∃ n, d_map c !! 1 = Some (v1', n))
    ∧ d_invoked c
      = match cb with
        | Some f => [(f, v0); (f, v2)]
        | None => []
        end.
Proof.
  destruct cb as [f|].
  - eexists. split; [vm_compute; reflexivity|].
    split_and!; [by vm_compute|done|by exists 2|done].
  - eexists. split; [vm_compute; reflexivity|].
    split_and!; [by vm_compute|done|by exists 2|done].
Qed.

End Scenario.

(** ** Instances on concrete caches *)

(** C1, as the claim states it, fails: the final key set is not {2, 3, 4}. *)
Lemma watermark_scenario_not_2_3_4 :
  ¬ ∃ c : Cache nat nat nat,
      watermark_scenario 10 11 12 13 14 15 None = Ret ([3; 3; 4; 3]%N, c)
      ∧ dom (d_map c) = ({[2; 3; 4]} : gset nat).
Proof.
  intros (c & Hrun & Hdom).
  vm_compute in Hrun. injection Hrun as <-.
  apply (f_equal (λ s : gset nat, bool_decide (1 ∈ s))) in Hdom.
  vm_compute in Hdom. discriminate Hdom.
Qed.

(** C2, as the claim states it, fails: with watermarks 1 and 2, the second
    insertion leaves [size() = highWatermark]. *)
Lemma watermark_strict_fails :
  ¬ ∀ (c : Cache nat nat nat) key valuePtr a x c',
      reachable c →
      (1 ≤ d_lowWatermark c)%N →
      (d_lowWatermark c ≤ d_highWatermark c)%N →
      insert c key valuePtr a = Ret (x, c') →
      (size c' < d_highWatermark c)%N
      ∨ (d_highWatermark c = 1%N ∧ d_lowWatermark c = 1%N).
Proof.
  intros Hclaim.
  set (c0 := Cache_new LRU 1 2 : Cache nat nat nat).
  set (c1 := relist c0 [Entry 1 0 10]).
  set (c2 := relist c0 [Entry 1 0 10; Entry 2 1 11]).
  assert (reachable c1) as Hr.
  { apply (reach_insert c0 0 10 alloc_ok returned); [apply reach_new|].
    vm_compute. reflexivity. }
  destruct (Hclaim c1 1 11 alloc_ok returned c2 Hr) as [Hlt|[Heq _]].
  - vm_compute. discriminate.
  - vm_compute. discriminate.
  - vm_compute. reflexivity.
  - vm_compute in Hlt. discriminate Hlt.
  - vm_compute in Heq. discriminate Heq.
Qed.

Lemma two_entries_inv : cache_inv two_entries.
Proof. apply relist_inv. split; apply (bool_decide_unpack _); by vm_compute. Qed.

Lemma one_entry_full_inv : cache_inv one_entry_full.
Proof. apply relist_inv. split; apply (bool_decide_unpack _); by vm_compute. Qed.

Lemma four_entries_inv : cache_inv four_entries.
Proof. apply relist_inv. split; apply (bool_decide_unpack _); by vm_compute. Qed.

Lemma two_entries_reachable : reachable two_entries.
Proof.
  set (c0 := Cache_new LRU 3 4 : Cache nat nat nat).
  apply (reach_insert (relist (setPostEvictionCallback c0 (Some 0))
                              [Entry 1 7 70]) 8 80 alloc_ok returned).
  - apply (reach_insert (setPostEvictionCallback c0 (Some 0))
                        7 70 alloc_ok returned).
    + apply reach_setPostEvictionCallback, reach_new.
    + vm_compute. reflexivity.
  - vm_compute. reflexivity.
Qed.

Lemma reachable_bijection_witness :
  reachable two_entries ∧ cache_inv two_entries.
Proof.
  split.
  - exact two_entries_reachable.
  - exact (reachable_bijection two_entries two_entries_reachable).
Defined.

Lemma erase_law_witness :
  d_map two_entries !! 9 = None
  ∧ erase two_entries 9 = Ret (1%Z, two_entries)
  ∧ cache_inv two_entries
  ∧ d_map two_entries !! 7 = Some (70, 1)
  ∧ ∃ c' q1 q2,
      erase two_entries 7 = Ret (0%Z, c')
      ∧ d_map c' = delete 7 (d_map two_entries)
      ∧ d_queue two_entries = q1 ++ (1, 7) :: q2
      ∧ d_queue c' = q1 ++ q2
      ∧ (size c' + 1 = size two_entries)%N
      ∧ d_invoked c'
        = d_invoked two_entries
          ++ match d_postEvictionCallback two_entries with
             | Some f => [(f, 70)]
             | None => []
             end
      ∧ cache_inv c'.
Proof.
  assert (d_map two_entries !! 9 = None) as H9 by (vm_compute; reflexivity).
  assert (d_map two_entries !! 7 = Some (70, 1)) as H7
    by (vm_compute; reflexivity).
  split_and!.
  - exact H9.
  - exact (proj1 erase_law two_entries 9 H9).
  - exact two_entries_inv.
  - exact H7.
  - exact (proj2 erase_law two_entries 7 70 1 two_entries_inv H7).
Defined.

Lemma insert_tryGetValue_witness :
  cache_inv two_entries
  ∧ ∃ c1,
      insert two_entries 7 71 alloc_ok = Ret (returned, c1)
      ∧ tryGetValue c1 0 7 true = Ret (0%Z, 71, c1)
      ∧ tryGetValue c1 0 7 false = Ret (0%Z, 71, c1).
Proof.
  split.
  - exact two_entries_inv.
  - destruct (insert_tryGetValue two_entries 7 71 two_entries_inv)
      as [[c1 Hins] Hget].
    exists c1. split_and!.
    + exact Hins.
    + exact (Hget alloc_ok c1 0 true Hins).
    + exact (Hget alloc_ok c1 0 false Hins).
Defined.

Lemma insert_rollback_witness :
  cache_inv two_entries
  ∧ enforceHighWatermark two_entries = Ret two_entries
  ∧ d_map two_entries !! 9 = None
  ∧ insert two_entries 9 90 alloc_fails_emplace = Ret (threw, two_entries)
  ∧ (9 ∉ (d_queue two_entries).*2)
  ∧ ∃ c2,
      insert two_entries 9 90 alloc_ok = Ret (returned, c2)
      ∧ d_queue c2 = push_back (d_queue two_entries) 9
      ∧ d_map c2
        = <[9 := (90, fresh_node (d_queue two_entries))]> (d_map two_entries)
      ∧ cache_inv c2.
Proof.
  assert (enforceHighWatermark two_entries = Ret two_entries) as He
    by (vm_compute; reflexivity).
  assert (d_map two_entries !! 9 = None) as H9 by (vm_compute; reflexivity).
  destruct (insert_rollback two_entries 9 90 two_entries_inv)
    as (c1 & Henf & _ & Himp).
  rewrite He in Henf. injection Henf as <-.
  destruct (Himp H9) as (Hthrow & Hq & Hok).
  split_and!.
  - exact two_entries_inv.
  - exact He.
  - exact H9.
  - exact Hthrow.
  - exact Hq.
  - exact Hok.
Defined.

Lemma watermark_law_witness :
  cache_inv four_entries
  ∧ (1 ≤ d_lowWatermark four_entries)%N
  ∧ (d_lowWatermark four_entries ≤ d_highWatermark four_entries)%N
  ∧ ∃ c1 x c',
      enforceHighWatermark four_entries = Ret c1
      ∧ insert four_entries 9 90 alloc_ok = Ret (x, c')
      ∧ (size c' ≤ d_highWatermark four_entries)%N
      ∧ (size c1 < d_lowWatermark four_entries)%N.
Proof.
  assert (1 ≤ d_lowWatermark four_entries)%N as Hl
    by (vm_compute; discriminate).
  assert (d_lowWatermark four_entries ≤ d_highWatermark four_entries)%N
    as Hh by (vm_compute; discriminate).
  assert (d_highWatermark four_entries ≤ size four_entries)%N as Hfull
    by (vm_compute; discriminate).
  destruct (watermark_law four_entries 9 90 alloc_ok four_entries_inv Hl Hh)
    as (c1 & x & c' & Henf & Hins & Hsize & _ & Hlow).
  split_and!.
  - exact four_entries_inv.
  - exact Hl.
  - exact Hh.
  - exists c1, x, c'. split_and!.
    + exact Henf.
    + exact Hins.
    + exact Hsize.
    + exact (Hlow Hfull).
Defined.

Lemma insert_full_evicts_key_witness :
  cache_inv one_entry_full
  ∧ (d_highWatermark one_entry_full ≤ size one_entry_full)%N
  ∧ (d_lowWatermark one_entry_full ≤ size one_entry_full)%N
  ∧ front (d_queue one_entry_full) = Ret 7
  ∧ d_map one_entry_full !! 7 = Some (70, 1)
  ∧ d_postEvictionCallback one_entry_full = Some 0
  ∧ ∃ c1 c2 rest,
      enforceHighWatermark one_entry_full = Ret c1
      ∧ d_map c1 !! 7 = None
      ∧ d_invoked c1 = d_invoked one_entry_full ++ (0, 70) :: rest
      ∧ insert one_entry_full 7 71 alloc_ok = Ret (returned, c2)
      ∧ d_queue c2 = push_back (d_queue c1) 7
      ∧ d_map c2 = <[7 := (71, fresh_node (d_queue c1))]> (d_map c1)
      ∧ d_invoked c2 = d_invoked c1.
Proof.
  assert (d_highWatermark one_entry_full ≤ size one_entry_full)%N as Hh
    by (vm_compute; discriminate).
  assert (d_lowWatermark one_entry_full ≤ size one_entry_full)%N as Hl
    by (vm_compute; discriminate).
  assert (front (d_queue one_entry_full) = Ret 7) as Hf by reflexivity.
  assert (d_map one_entry_full !! 7 = Some (70, 1)) as Hm
    by (vm_compute; reflexivity).
  assert (d_postEvictionCallback one_entry_full = Some 0) as Hc
    by reflexivity.
  split_and!.
  - exact one_entry_full_inv.
  - exact Hh.
  - exact Hl.
  - exact Hf.
  - exact Hm.
  - exact Hc.
  - exact (proj1 insert_full_evicts_key one_entry_full 7 70 1 71 0
             one_entry_full_inv Hh Hl Hf Hm Hc).
Defined.

Lemma lru_order_witness :
  NoDup [0; 1; 2; 3]
  ∧ ∃ c4 c5 : Cache nat nat nat,
      lru_read_then_insert 0 1 2 3 10 11 12 13 99 (Some 0) = Ret (c4, c5)
      ∧ (d_queue c4).*2 = [1; 2; 0]
      ∧ (d_queue c5).*2 = [0; 3]
      ∧ d_map c5 !! 1 = None
      ∧ (∃ n, d_map c5 !! 0 = Some (10, n))
      ∧ d_invoked c5 = [(0, 11); (0, 12)].
Proof.
  assert (NoDup [0; 1; 2; 3]) as Hnd
    by (apply (bool_decide_unpack _); by vm_compute).
  split.
  - exact Hnd.
  - exact (lru_order 0 1 2 3 10 11 12 13 99 (Some 0) Hnd).
Defined.

Lemma fifo_order_witness :
  NoDup (inserted fifo_calls).*1
  ∧ ∃ (c : Cache nat nat nat) gone,
      run (setPostEvictionCallback (Cache_new FIFO 2 2) (Some 0)) fifo_calls
      = Ret c
      ∧ inserted fifo_calls = gone ++ contents c
      ∧ d_invoked c = (λ kv, (0, kv.2)) <$> gone.
Proof.
  assert (NoDup (inserted fifo_calls).*1) as Hnd
    by (apply (bool_decide_unpack _); by vm_compute).
  split.
  - exact Hnd.
  - exact (fifo_order 2 2 (Some 0) fifo_calls Hnd).
Defined.

(** * Further properties of the component *)

Section Manipulators.
Context {KeyType : Type} `{Countable KeyType}.
Context {ValuePtrType PostEvictionCallback : Type}.

Local Abbreviation cache := (Cache KeyType ValuePtrType PostEvictionCallback).
Local Abbreviation entries := (list (entry KeyType ValuePtrType)).

Implicit Types (c : cache) (l : entries) (e : entry KeyType ValuePtrType).

(** X1.  [popFront()] on an empty cache returns 1 and changes nothing.  On
    a cache that is not empty it returns 0, removes the node at the front
    of the queue and the entry of its key, leaves the other nodes in their
    order, and invokes the callback, when one is set, once with the value
    handle of that entry. *)
Theorem popFront_law :
  (∀ c, size c = 0%N → popFront c = Ret (1%Z, c))
  ∧ (∀ c,
       cache_inv c → (0 < size c)%N →
       ∃ n key v q c',
         d_queue c = (n, key) :: q
         ∧ d_map c !! key = Some (v, n)
         ∧ popFront c = Ret (0%Z, c')
         ∧ d_queue c' = q
         ∧ d_map c' = delete key (d_map c)
         ∧ (size c' + 1 = size c)%N
         ∧ d_invoked c'
           = d_invoked c
             ++ match d_postEvictionCallback c with
                | Some f => [(f, v)]
                | None => []
                end
         ∧ cache_inv c').
Proof.
  split.
  - intros c Hs. unfold popFront. by rewrite Hs.
  - intros c (l & Hwf & ->)%inv_relist.
    rewrite size_relist by apply Hwf. intros Hpos.
    destruct l as [|[n key v] l]; [simpl in Hpos; lia|].
    exists n, key, v, (queue_of l), (relist (invoke c v) l).
    split_and!.
    + done.
    + apply (map_of_lookup_Some (Entry n key v :: l)); [apply Hwf|left].
    + by apply (popFront_relist_cons c (Entry n key v) l).
    + done.
    + symmetry. apply (map_of_delete [] (Entry n key v) l), Hwf.
    + rewrite !size_relist by (apply Hwf || eapply wf_tail, Hwf).
      simpl. lia.
    + exact (invoke_invoked c v).
    + eapply relist_inv, wf_tail, Hwf.
Qed.

(** X2.  [tryGetValue] on a cache without the key returns 1 and changes
    neither [*value] nor the cache.  On a cache with the key it returns 0
    and loads the handle stored for the key; the map and the record of
    callback invocations stay as they are, and the queue changes only when
    the policy is LRU and [modifyEvictionQueue] is true: the node of the
    key then moves to the back and the other nodes keep their order. *)
Theorem tryGetValue_law c value key modify :
  cache_inv c →
  match d_map c !! key with
  | None => tryGetValue c value key modify = Ret (1%Z, value, c)
  | Some (v, n) =>
      ∃ q1 q2,
        d_queue c = q1 ++ (n, key) :: q2
        ∧ tryGetValue c value key modify
          = Ret (0%Z, v,
                 match d_evictionPolicy c, modify with
                 | CacheEvictionPolicy.e_LRU, true =>
                     with_map_queue c (d_map c) (q1 ++ q2 ++ [(n, key)])
                 | _, _ => c
                 end)
  end.
Proof.
  intros (l & Hwf & ->)%inv_relist.
  change (d_map (relist c l)) with (map_of l).
  change (d_queue (relist c l)) with (queue_of l).
  change (d_evictionPolicy (relist c l)) with (d_evictionPolicy c).
  destruct (map_of l !! key) as [[v n]|] eqn:Hk.
  - apply map_of_lookup_Some in Hk; [|apply Hwf].
    apply list_elem_of_split in Hk as (l1 & l2 & ->).
    exists (queue_of l1), (queue_of l2). split.
    + apply (queue_of_app l1 (Entry n key v :: l2)).
    + destruct (moves c modify) eqn:Hm.
      * rewrite (tryGetValue_relist_move c l1 (Entry n key v) l2) by done.
        unfold moves in Hm.
        destruct (d_evictionPolicy c); [|done]. destruct modify; [|done].
        unfold relist. rewrite map_of_touch by done.
        by rewrite !queue_of_app.
      * rewrite (tryGetValue_no_move _ value key v n modify).
        -- unfold moves in Hm.
           by destruct (d_evictionPolicy c), modify.
        -- apply map_of_lookup_Some; [apply Hwf|].
           apply elem_of_app. right. left.
        -- done.
  - by apply tryGetValue_absent.
Qed.

(** X3.  [insert] of a key that is not in a cache below its high watermark,
    with the allocator serving the call: the key gets a new node at the
    back of the queue and an entry with the handle given; nothing else
    changes, no callback is invoked, and [size()] grows by one. *)
Theorem insert_new_below_high c key valuePtr :
  cache_inv c →
  (size c < d_highWatermark c)%N →
  d_map c !! key = None →
  let n := fresh_node (d_queue c) in
  let c' := with_map_queue c (<[key := (valuePtr, n)]> (d_map c))
                           (d_queue c ++ [(n, key)]) in
  insert c key valuePtr alloc_ok = Ret (returned, c')
  ∧ size c' = (size c + 1)%N
  ∧ cache_inv c'.
Proof.
  intros (l & Hwf & ->)%inv_relist.
  rewrite size_relist by apply Hwf.
  change (d_highWatermark (relist c l)) with (d_highWatermark c).
  change (d_map (relist c l)) with (map_of l).
  change (d_queue (relist c l)) with (queue_of l).
  intros Hlt Hk. cbv zeta.
  assert (key ∉ keys_of l) as Hkl.
  { intros Hin%map_of_lookup_is_Some. rewrite Hk in Hin. by destruct Hin. }
  destruct (kept_cases c l) as [(_ & Hkept & Hev)|(? & _)]; [|lia].
  set (e := Entry (fresh_node (queue_of l)) key valuePtr).
  assert (wf (l ++ [e])) as Hwf'
    by (apply wf_snoc; [done|done|apply fresh_node_queue_of]).
  assert (with_map_queue (relist c l)
            (<[key := (valuePtr, fresh_node (queue_of l))]> (map_of l))
            (queue_of l ++ [(fresh_node (queue_of l), key)])
          = relist c (l ++ [e])) as ->.
  { unfold relist. rewrite (map_of_snoc l e) by done.
    by rewrite queue_of_app. }
  split_and!.
  - rewrite insert_relist_absent by (done || by rewrite Hkept).
    unfold enforced. by rewrite Hkept, Hev.
  - rewrite size_relist by apply Hwf'. rewrite length_app. simpl. lia.
  - by apply relist_inv.
Qed.


(** X9.  In a cache below its high watermark, [insert] of a key that is not
    in the cache followed by [erase] of that key gives back the map and the
    queue as they were; the callback, when one is set, is invoked once,
    with the handle inserted. *)
Theorem insert_erase_roundtrip c key valuePtr :
  cache_inv c →
  (size c < d_highWatermark c)%N →
  d_map c !! key = None →
  ∃ c1,
    insert c key valuePtr alloc_ok = Ret (returned, c1)
    ∧ erase c1 key = Ret (0%Z, invoke c valuePtr).
Proof.
  intros (l & Hwf & ->)%inv_relist.
  rewrite size_relist by apply Hwf.
  change (d_highWatermark (relist c l)) with (d_highWatermark c).
  change (d_map (relist c l)) with (map_of l).
  intros Hlt Hk.
  assert (key ∉ keys_of l) as Hkl.
  { intros Hin%map_of_lookup_is_Some. rewrite Hk in Hin. by destruct Hin. }
  destruct (kept_cases c l) as [(_ & Hkept & Hev)|(? & _)]; [|lia].
  set (e := Entry (fresh_node (queue_of l)) key valuePtr).
  assert (wf (l ++ [e])) as Hwf'
    by (apply wf_snoc; [done|done|apply fresh_node_queue_of]).
  exists (relist c (l ++ [e])). split.
  - rewrite insert_relist_absent by (done || by rewrite Hkept).
    unfold enforced. by rewrite Hkept, Hev.
  - pose proof (erase_relist_present c l e [] Hwf') as Her.
    rewrite app_nil_r, <- invoke_relist in Her. exact Her.
Qed.

(** X10.  After [erase(key)], whatever it returned, the key is not in the
    cache: [tryGetValue] for it returns 1 and leaves [*value] alone, and a
    second [erase] returns 1 and changes nothing. *)
Theorem erase_idempotent c key :
  cache_inv c →
  ∃ rc c',
    erase c key = Ret (rc, c')
    ∧ d_map c' !! key = None
    ∧ erase c' key = Ret (1%Z, c')
    ∧ ∀ value modify,
        tryGetValue c' value key modify = Ret (1%Z, value, c').
Proof.
  intros (l & Hwf & ->)%inv_relist.
  assert (∃ rc c', erase (relist c l) key = Ret (rc, c')
                   ∧ d_map c' !! key = None) as (rc & c' & He & Hk).
  { destruct (key_cases l key) as [Hk|(l1 & e & l2 & -> & <-)].
    - exists 1%Z, (relist c l).
      split; [|by apply map_of_lookup_None].
      apply erase_absent. by apply map_of_lookup_None.
    - exists 0%Z, (relist (invoke c (e_value e)) (l1 ++ l2)).
      split; [by apply erase_relist_present|].
      apply map_of_lookup_None. by destruct (wf_middle _ _ _ Hwf). }
  exists rc, c'. split_and!; [done|done|by apply erase_absent|].
  intros value modify. by apply tryGetValue_absent.
Qed.

(** X13.  The proctor of [insert]: destroyed while it monitors the queue,
    it removes the node that [push_back] added and gives back the queue as
    it was before; destroyed after [release()], it leaves the queue with
    the node. *)
Theorem QueueProctor_push_back (q : QueueType KeyType) key :
  QueueProctor.dtor QueueProctor.ctor (push_back q key) = Ret q
  ∧ QueueProctor.dtor (QueueProctor.release QueueProctor.ctor)
                      (push_back q key)
    = Ret (push_back q key).
Proof.
  split; [|done].
  unfold QueueProctor.dtor, QueueProctor.ctor, push_back. simpl.
  unfold pop_back.
  destruct (q ++ [(fresh_node q, key)]) eqn:E.
  - by destruct q.
  - rewrite <- E. by rewrite removelast_last.
Qed.


End Manipulators.

Section Contents.
Context {KeyType : Type} `{Countable KeyType}.
Context {ValuePtrType PostEvictionCallback : Type}.

Local Abbreviation cache := (Cache KeyType ValuePtrType PostEvictionCallback).
Local Abbreviation entries := (list (entry KeyType ValuePtrType)).

Implicit Types (c : cache) (l : entries) (e : entry KeyType ValuePtrType).

Lemma calls_pairs c l :
  calls c (values_of l)
  = match d_postEvictionCallback c with
    | Some f => (λ kv, (f, kv.2)) <$> pairs l
    | None => []
    end.
Proof.
  unfold calls, values_of, pairs. destruct (d_postEvictionCallback c); [|done].
  by rewrite <- !list_fmap_compose.
Qed.

Lemma filter_pairs_absent l key :
  key ∉ keys_of l → filter (λ kv, kv.1 ≠ key) (pairs l) = pairs l.
Proof.
  induction l as [|e l IH]; [done|]. simpl.
  rewrite not_elem_of_cons. intros [Hne Hk].
  rewrite filter_cons_True by (simpl; congruence).
  f_equal. by apply IH.
Qed.

Lemma filter_pairs_present l1 e l2 :
  wf (l1 ++ e :: l2) →
  filter (λ kv, kv.1 ≠ e_key e) (pairs (l1 ++ e :: l2)) = pairs (l1 ++ l2).
Proof.
  intros Hwf. destruct (wf_middle _ _ _ Hwf) as (Hk & _ & _).
  rewrite keys_of_app, not_elem_of_app in Hk. destruct Hk as [Hk1 Hk2].
  rewrite !pairs_app, filter_app. simpl.
  rewrite filter_cons_False by (simpl; intros Hne; by apply Hne).
  by rewrite !filter_pairs_absent.
Qed.

(** X7.  The watermark pass on a cache that has reached its high watermark,
    with [1 <= lowWatermark <= size()]: it returns with
    [size() == lowWatermark - 1]; the entries gone are those at the front
    of the queue, the entries left are the rest in their order, and the
    callback, when one is set, has been invoked once for each entry gone,
    from the front on. *)
Theorem enforceHighWatermark_exact c :
  cache_inv c →
  (1 ≤ d_lowWatermark c)%N →
  (d_lowWatermark c ≤ size c)%N →
  (d_highWatermark c ≤ size c)%N →
  ∃ c1 gone,
    enforceHighWatermark c = Ret c1
    ∧ contents c = gone ++ contents c1
    ∧ (size c1 = d_lowWatermark c - 1)%N
    ∧ d_invoked c1
      = d_invoked c
        ++ match d_postEvictionCallback c with
           | Some f => (λ kv, (f, kv.2)) <$> gone
           | None => []
           end
    ∧ cache_inv c1.
Proof.
  intros (l & Hwf & ->)%inv_relist.
  rewrite !size_relist by apply Hwf.
  change (d_lowWatermark (relist c l)) with (d_lowWatermark c).
  change (d_highWatermark (relist c l)) with (d_highWatermark c).
  intros Hone Hlow Hhigh.
  pose proof (wf_kept c l Hwf) as Hwfk.
  exists (relist (enforced c l) (kept c l)), (pairs (evicted c l)).
  split_and!.
  - by apply enforceHighWatermark_relist.
  - rewrite !contents_relist by done.
    by rewrite <- pairs_app, evicted_kept.
  - rewrite size_relist by apply Hwfk.
    destruct (kept_cases c l) as [(? & _)|(_ & -> & _)]; lia.
  - change (d_invoked (relist (enforced c l) (kept c l)))
      with (d_invoked (enforced c l)).
    unfold enforced. rewrite invoke_all_invoked.
    change (d_invoked (relist c l)) with (d_invoked c).
    by rewrite calls_pairs.
  - by apply relist_inv.
Qed.

(** X6.  What [insert] does to the contents of the cache, when the
    allocator serves the call: the watermark pass takes entries from the
    front of the queue (none below the high watermark, and otherwise all
    but [lowWatermark - 1]) and gives each to the callback; the entry of
    the key, if it is among the rest, is taken out; the key with the new
    handle is put at the back. *)
Theorem insert_contents c key valuePtr :
  cache_inv c →
  ∃ c' gone rest,
    insert c key valuePtr alloc_ok = Ret (returned, c')
    ∧ contents c = gone ++ rest
    ∧ contents c' = filter (λ kv, kv.1 ≠ key) rest ++ [(key, valuePtr)]
    ∧ d_invoked c'
      = d_invoked c
        ++ match d_postEvictionCallback c with
           | Some f => (λ kv, (f, kv.2)) <$> gone
           | None => []
           end
    ∧ ((size c < d_highWatermark c)%N → gone = [])
    ∧ ((d_highWatermark c ≤ size c)%N →
       length rest
       = length (contents c) `min` N.to_nat (N.pred (d_lowWatermark c))).
Proof.
  intros (l & Hwf & ->)%inv_relist.
  rewrite !size_relist by apply Hwf.
  rewrite contents_relist by done.
  change (d_lowWatermark (relist c l)) with (d_lowWatermark c).
  change (d_highWatermark (relist c l)) with (d_highWatermark c).
  change (d_invoked (relist c l)) with (d_invoked c).
  change (d_postEvictionCallback (relist c l))
    with (d_postEvictionCallback c).
  pose proof (wf_kept c l Hwf) as Hwfk.
  assert (d_invoked (enforced c l)
          = d_invoked c
            ++ match d_postEvictionCallback c with
               | Some f => (λ kv, (f, kv.2)) <$> pairs (evicted c l)
               | None => []
               end) as Hinv.
  { unfold enforced. by rewrite invoke_all_invoked, calls_pairs. }
  assert (∃ c', insert (relist c l) key valuePtr alloc_ok = Ret (returned, c')
                ∧ contents c'
                  = filter (λ kv, kv.1 ≠ key) (pairs (kept c l))
                    ++ [(key, valuePtr)]
                ∧ d_invoked c' = d_invoked (enforced c l))
    as (c' & Hins & Hcont & Hinv').
  { destruct (key_cases (kept c l) key) as [Hk|(l1 & e & l2 & Hl & <-)].
    - eexists. split_and!; [by apply insert_relist_absent| |done].
      rewrite contents_relist
        by (apply wf_snoc; [done|done|apply fresh_node_queue_of]).
      by rewrite pairs_app, filter_pairs_absent.
    - rewrite Hl in Hwfk.
      eexists. split_and!; [by eapply insert_relist_present| |done].
      rewrite contents_relist by (by apply wf_move).
      rewrite Hl, filter_pairs_present by done.
      by rewrite app_assoc, (pairs_app (l1 ++ l2)). }
  exists c', (pairs (evicted c l)), (pairs (kept c l)). split_and!.
  - done.
  - by rewrite <- pairs_app, evicted_kept.
  - done.
  - by rewrite Hinv'.
  - intros Hlt. destruct (kept_cases c l) as [(_ & _ & ->)|(? & _)]; [done|lia].
  - intros Hge. unfold pairs. rewrite !length_fmap.
    destruct (kept_cases c l) as [(? & _)|(_ & -> & _)]; [lia|done].
Qed.

(** One call of [popFront] for each entry. *)
Lemma run_popFront_all l :
  ∀ c,
    wf l →
    run (relist c l) (replicate (length l) call_popFront)
    = Ret (relist (invoke_all c (values_of l)) []).
Proof.
  induction l as [|e l IH]; intros c Hwf; [done|].
  simpl. rewrite popFront_relist_cons by done. simpl.
  apply IH. by eapply wf_tail.
Qed.

(** X12.  [popFront()] called [size()] times: every call returns 0, the
    cache ends empty, and the callback, when one is set, has been invoked
    once with the handle of each entry, in the order of the queue. *)
Theorem popFront_drains c :
  cache_inv c →
  ∃ c',
    run c (replicate (N.to_nat (size c)) call_popFront) = Ret c'
    ∧ d_map c' = ∅
    ∧ d_queue c' = []
    ∧ d_invoked c'
      = d_invoked c
        ++ match d_postEvictionCallback c with
           | Some f => (λ kv, (f, kv.2)) <$> contents c
           | None => []
           end.
Proof.
  intros (l & Hwf & ->)%inv_relist.
  rewrite size_relist, Nat2N.id by apply Hwf.
  exists (relist (invoke_all c (values_of l)) []). split_and!.
  - by apply run_popFront_all.
  - done.
  - done.
  - rewrite contents_relist by done.
    change (d_invoked (relist (invoke_all c (values_of l)) []))
      with (d_invoked (invoke_all c (values_of l))).
    rewrite invoke_all_invoked.
    change (d_invoked (relist c l)) with (d_invoked c).
    change (d_postEvictionCallback (relist c l))
      with (d_postEvictionCallback c).
    by rewrite calls_pairs.
Qed.

End Contents.

Section Bounds.
Context {KeyType : Type} `{Countable KeyType}.
Context {ValuePtrType PostEvictionCallback : Type}.

Local Abbreviation cache := (Cache KeyType ValuePtrType PostEvictionCallback).
Local Abbreviation entries := (list (entry KeyType ValuePtrType)).

Implicit Types (c : cache) (l : entries) (e : entry KeyType ValuePtrType).

Lemma evictItem_keeps c key v n c' :
  evictItem c (key, (v, n)) = Ret c' →
  (size c' ≤ size c)%N
  ∧ d_lowWatermark c' = d_lowWatermark c
  ∧ d_highWatermark c' = d_highWatermark c.
Proof.
  unfold evictItem. destruct (list_erase (d_queue c) n) as [q|]; [|done].
  simpl. intros [= <-].
  rewrite invoke_low, invoke_high. split_and!; [|done|done].
  unfold size. rewrite invoke_map. simpl.
  pose proof (map_subseteq_size _ _ (delete_subseteq (d_map c) key)). lia.
Qed.

Lemma tryGetValue_keeps c value key modify rc value' c' :
  tryGetValue c value key modify = Ret (rc, value', c') →
  size c' = size c
  ∧ d_lowWatermark c' = d_lowWatermark c
  ∧ d_highWatermark c' = d_highWatermark c.
Proof.
  unfold tryGetValue.
  destruct (find (d_map c) key) as [[_ [v queueItr]]|]; [|by intros [= _ _ <-]].
  destruct (d_evictionPolicy c), modify; try by intros [= _ _ <-].
  destruct (last_node (d_queue c)) as [lst|]; [|done]. simpl.
  destruct (decide (lst ≠ queueItr)); [|by intros [= _ _ <-]].
  destruct (splice_end (d_queue c) queueItr) as [q|]; [|done]. simpl.
  by intros [= _ _ <-].
Qed.

Lemma popFront_keeps c rc c' :
  popFront c = Ret (rc, c') →
  (size c' ≤ size c)%N
  ∧ d_lowWatermark c' = d_lowWatermark c
  ∧ d_highWatermark c' = d_highWatermark c.
Proof.
  unfold popFront. destruct (0 <? size c)%N; [|by intros [= _ <-]].
  destruct (front (d_queue c)) as [k|]; [|done]. simpl.
  destruct (find (d_map c) k) as [[key [v n]]|]; [|done].
  destruct (evictItem c (key, (v, n))) as [c1|] eqn:He; [|done].
  simpl. intros [= _ <-]. by eapply evictItem_keeps.
Qed.

Lemma erase_keeps c key rc c' :
  erase c key = Ret (rc, c') →
  (size c' ≤ size c)%N
  ∧ d_lowWatermark c' = d_lowWatermark c
  ∧ d_highWatermark c' = d_highWatermark c.
Proof.
  unfold erase.
  destruct (find (d_map c) key) as [[k [v n]]|]; [|by intros [= _ <-]].
  destruct (evictItem c (k, (v, n))) as [c1|] eqn:He; [|done].
  simpl. intros [= _ <-]. by eapply evictItem_keeps.
Qed.

Lemma insert_bounded c key valuePtr a x c' :
  described c →
  insert c key valuePtr a = Ret (x, c') →
  d_lowWatermark c' = d_lowWatermark c
  ∧ d_highWatermark c' = d_highWatermark c
  ∧ ((1 ≤ d_lowWatermark c)%N →
     (d_lowWatermark c ≤ d_highWatermark c)%N →
     (size c' ≤ d_highWatermark c)%N).
Proof.
  intros (l & Hwf & ->).
  change (d_lowWatermark (relist c l)) with (d_lowWatermark c).
  change (d_highWatermark (relist c l)) with (d_highWatermark c).
  pose proof (wf_kept c l Hwf) as Hwfk.
  assert (d_lowWatermark (enforced c l) = d_lowWatermark c) as Hl
    by apply invoke_all_low.
  assert (d_highWatermark (enforced c l) = d_highWatermark c) as Hh
    by apply invoke_all_high.
  assert ((1 ≤ d_lowWatermark c)%N →
          (d_lowWatermark c ≤ d_highWatermark c)%N →
          (N.of_nat (S (length (kept c l))) ≤ d_highWatermark c)%N) as Hle.
  { intros ??. destruct (kept_cases c l) as [(? & -> & _)|(? & -> & _)]; lia. }
  destruct (key_cases (kept c l) key) as [Hk|(l1 & e & l2 & Hkept & <-)].
  - destruct (decide (a = alloc_ok)) as [->|Ha].
    + rewrite insert_relist_absent by done. intros [= <- <-].
      split_and!; [done|done|]. intros ??.
      rewrite size_relist
        by (apply wf_snoc; [done|done|apply fresh_node_queue_of]).
      rewrite length_app. simpl. specialize (Hle ltac:(done) ltac:(done)). lia.
    + rewrite insert_relist_throw by done. intros [= <- <-].
      split_and!; [done|done|]. intros ??.
      rewrite size_relist by apply Hwfk.
      specialize (Hle ltac:(done) ltac:(done)). lia.
  - rewrite (insert_relist_present c l l1 e l2 valuePtr a Hwf Hkept).
    intros [= <- <-]. split_and!; [done|done|]. intros ??.
    rewrite Hkept in Hwfk, Hle.
    rewrite size_relist by (by apply wf_move).
    specialize (Hle ltac:(done) ltac:(done)).
    rewrite !length_app in *. simpl in *. lia.
Qed.

(** X8.  A cache constructed with [1 <= lowWatermark <= highWatermark]
    never holds more than [highWatermark] entries: [size() <=
    highWatermark] in every state that calls of the manipulators reach. *)
Theorem size_bounded c :
  reachable c →
  (1 ≤ d_lowWatermark c)%N →
  (d_lowWatermark c ≤ d_highWatermark c)%N →
  (size c ≤ d_highWatermark c)%N.
Proof.
  induction 1 as [policy low high
                 |c key valuePtr a x c' Hr IH Hop
                 |c value key modify rc value' c' Hr IH Hop
                 |c rc c' Hr IH Hop
                 |c key rc c' Hr IH Hop
                 |c Hr IH
                 |c f Hr IH].
  - intros. unfold size. simpl. rewrite map_size_empty. lia.
  - apply reachable_described in Hr.
    destruct (insert_bounded c key valuePtr a x c' Hr Hop) as (-> & -> & Hb).
    done.
  - destruct (tryGetValue_keeps _ _ _ _ _ _ _ Hop) as (-> & -> & ->). done.
  - destruct (popFront_keeps _ _ _ Hop) as (Hs & -> & ->).
    intros ??. specialize (IH ltac:(done) ltac:(done)). lia.
  - destruct (erase_keeps _ _ _ _ Hop) as (Hs & -> & ->).
    intros ??. specialize (IH ltac:(done) ltac:(done)). lia.
  - intros. unfold size. simpl. rewrite map_size_empty. lia.
  - exact IH.
Qed.

(** Insertions that do not reach the high watermark. *)
Lemma run_insertions (kvs : list (KeyType * ValuePtrType)) :
  ∀ c l,
    wf l →
    (N.of_nat (length l + length kvs) ≤ d_highWatermark c)%N →
    ∃ l',
      run (relist c l) (insertions kvs) = Ret (relist c l')
      ∧ wf l'
      ∧ length l' ≤ length l + length kvs
      ∧ fst <$> map_of l'
        = foldl (λ m kv, <[kv.1 := kv.2]> m) (fst <$> map_of l) kvs.
Proof.
  induction kvs as [|[key valuePtr] kvs IH]; intros c l Hwf Hlen.
  - exists l. split_and!; [done|done|simpl; lia|done].
  - simpl in Hlen.
    destruct (kept_cases c l) as [(_ & Hkept & Hev)|(? & _)]; [|lia].
    assert (enforced c l = c) as Henf by (unfold enforced; by rewrite Hev).
    assert (∃ l1, insert (relist c l) key valuePtr alloc_ok
                  = Ret (returned, relist c l1)
                  ∧ wf l1 ∧ length l1 ≤ S (length l)
                  ∧ fst <$> map_of l1
                    = <[key := valuePtr]> (fst <$> map_of l))
      as (l1 & Hins & Hwf1 & Hlen1 & Hmap1).
    { destruct (key_cases l key) as [Hk|(l1 & e & l2 & -> & <-)].
      - eexists. split_and!.
        + rewrite insert_relist_absent by (done || by rewrite Hkept).
          by rewrite Henf, Hkept.
        + apply wf_snoc; [done|done|apply fresh_node_queue_of].
        + rewrite length_app. simpl. lia.
        + rewrite (map_of_snoc l (Entry _ key valuePtr)) by done.
          by rewrite fmap_insert.
      - eexists. split_and!.
        + rewrite (insert_relist_present c _ l1 e l2 valuePtr alloc_ok)
            by done.
          by rewrite Henf.
        + by apply wf_move.
        + rewrite !length_app. simpl. lia.
        + rewrite <- (map_of_move l1 e l2 valuePtr) by done.
          by rewrite fmap_insert. }
    destruct (IH c l1 Hwf1) as (l' & Hrun & Hwf' & Hlen' & Hmap'); [lia|].
    exists l'. split_and!.
    + simpl. rewrite Hins. simpl. exact Hrun.
    + done.
    + simpl. lia.
    + simpl. by rewrite Hmap', Hmap1.
Qed.

(** X11.  A cache made by the default constructor has effectively no size
    limit: insertions of any keys, as many as [size_t] can count, evict
    nothing and invoke no callback, and the cache then maps each key to the
    handle of its last insertion. *)
Theorem default_cache_is_map size_t_max cb
    (kvs : list (KeyType * ValuePtrType)) :
  (N.of_nat (length kvs) ≤ size_t_max)%N →
  ∃ c : cache,
    run (setPostEvictionCallback (Cache_default size_t_max) cb)
        (insertions kvs)
    = Ret c
    ∧ d_invoked c = []
    ∧ fst <$> d_map c = foldl (λ m kv, <[kv.1 := kv.2]> m) ∅ kvs
    ∧ (size c ≤ N.of_nat (length kvs))%N.
Proof.
  intros Hlen.
  set (c0 := setPostEvictionCallback (Cache_default size_t_max) cb : cache).
  destruct (run_insertions kvs c0 [] wf_nil) as (l' & Hrun & Hwf' & Hlen' & Hmap).
  { simpl. done. }
  exists (relist c0 l'). split_and!.
  - exact Hrun.
  - done.
  - change (d_map (relist c0 l')) with (map_of l').
    rewrite Hmap, map_of_nil. by rewrite fmap_empty.
  - rewrite size_relist by apply Hwf'. simpl in Hlen'. lia.
Qed.

End Bounds.

Section Visit.
Context {KeyType : Type} `{Countable KeyType}.
Context {ValuePtrType PostEvictionCallback ValueType : Type}.
Context (deref : ValuePtrType → option ValueType).

Local Abbreviation cache := (Cache KeyType ValuePtrType PostEvictionCallback).
Local Abbreviation entries := (list (entry KeyType ValuePtrType)).

Implicit Types (c : cache) (l : entries) (e : entry KeyType ValuePtrType).

Lemma visit_from_records (p : KeyType → ValueType → bool) l :
  ∀ l' (vals s : list (KeyType * ValueType)),
    (∀ e, e ∈ l' → map_of l !! e_key e = Some (e_value e, e_node e)) →
    Forall2 (λ kvp kv, kv.1 = kvp.1 ∧ deref kvp.2 = Some kv.2)
            (pairs l') vals →
    visit_from deref (map_of l) (λ k v s, (p k v, s ++ [(k, v)]))
               (queue_of l') s
    = Ret (s ++ take_through (λ kv, p kv.1 kv.2) vals).
Proof.
  induction l' as [|e l' IH]; intros vals s Hl Hv.
  - apply Forall2_nil_inv_l in Hv as ->. simpl. by rewrite app_nil_r.
  - simpl in Hv.
    apply Forall2_cons_inv_l in Hv as ([k v] & vals' & [Hk Hd] & Hv & ->).
    simpl in Hk, Hd. subst k. simpl.
    unfold find. rewrite (Hl e) by left. rewrite Hd.
    destruct (p (e_key e) v).
    + rewrite (IH vals'); [|intros e' Hin; apply Hl; by right|done].
      by rewrite <- app_assoc.
    + done.
Qed.

(** X5.  [visit] goes through the entries from the front of the eviction
    queue to its back, gives the visitor each key with the value its handle
    points to, and stops after the first entry for which the visitor
    returns false: a visitor that records what it is given, and answers by
    [p], has recorded the entries up to the first that [p] rejects, that
    one included, and all of them if [p] rejects none. *)
Theorem visit_records c (p : KeyType → ValueType → bool)
    (vals s : list (KeyType * ValueType)) :
  cache_inv c →
  Forall2 (λ kvp kv, kv.1 = kvp.1 ∧ deref kvp.2 = Some kv.2)
          (contents c) vals →
  visit deref c (λ k v s, (p k v, s ++ [(k, v)])) s
  = Ret (s ++ take_through (λ kv, p kv.1 kv.2) vals).
Proof.
  intros (l & Hwf & ->)%inv_relist.
  rewrite contents_relist by done. intros Hv.
  unfold visit.
  change (d_map (relist c l)) with (map_of l).
  change (d_queue (relist c l)) with (queue_of l).
  apply visit_from_records; [|done].
  intros [n k v] Hin. by apply map_of_lookup_Some; [apply Hwf|].
Qed.

End Visit.

Section FixedSize.
Context {KeyType : Type} `{Countable KeyType}.
Context {ValuePtrType PostEvictionCallback : Type}.

Local Abbreviation cache := (Cache KeyType ValuePtrType PostEvictionCallback).
Local Abbreviation entries := (list (entry KeyType ValuePtrType)).

Implicit Types (c : cache) (l : entries) (e : entry KeyType ValuePtrType).

(** X15.  [setPostEvictionCallback] changes neither the entries nor the
    record of past invocations, and the next removal uses the function
    given: [popFront] on a cache that is not empty then invokes it once,
    with the handle of the entry at the front, and invokes nothing when the
    function given is empty. *)
Theorem setPostEvictionCallback_next c cb :
  cache_inv c →
  (0 < size c)%N →
  ∃ key v rest c',
    contents (setPostEvictionCallback c cb) = (key, v) :: rest
    ∧ contents c = (key, v) :: rest
    ∧ popFront (setPostEvictionCallback c cb) = Ret (0%Z, c')
    ∧ contents c' = rest
    ∧ d_invoked c'
      = d_invoked c
        ++ match cb with
           | Some f => [(f, v)]
           | None => []
           end.
Proof.
  intros (l & Hwf & ->)%inv_relist.
  rewrite size_relist by apply Hwf. intros Hpos.
  destruct l as [|e l]; [simpl in Hpos; lia|].
  change (setPostEvictionCallback (relist c (e :: l)) cb)
    with (relist (setPostEvictionCallback c cb) (e :: l)).
  exists (e_key e), (e_value e), (pairs l),
         (relist (invoke (setPostEvictionCallback c cb) (e_value e)) l).
  split_and!.
  - by rewrite contents_relist.
  - by rewrite contents_relist.
  - by apply popFront_relist_cons.
  - rewrite contents_relist; [done|]. by eapply wf_tail.
  - change (d_invoked (relist ?c' l)) with (d_invoked c').
    rewrite invoke_invoked. unfold calls. simpl. by destruct cb.
Qed.

(** X16.  Equal watermarks give a fixed maximum size: when [lowWatermark ==
    highWatermark == size()], [insert] of a key that is not in the cache
    evicts the entry at the front of the queue, and only that one, gives
    its handle to the callback, and puts the key at the back; [size()] is
    the same afterwards. *)
Theorem insert_at_fixed_size c key valuePtr :
  cache_inv c →
  d_lowWatermark c = d_highWatermark c →
  size c = d_highWatermark c →
  (1 ≤ d_highWatermark c)%N →
  d_map c !! key = None →
  ∃ k0 v0 rest c',
    contents c = (k0, v0) :: rest
    ∧ insert c key valuePtr alloc_ok = Ret (returned, c')
    ∧ contents c' = rest ++ [(key, valuePtr)]
    ∧ size c' = size c
    ∧ d_invoked c'
      = d_invoked c
        ++ match d_postEvictionCallback c with
           | Some f => [(f, v0)]
           | None => []
           end.
Proof.
  intros (l & Hwf & ->)%inv_relist.
  rewrite !size_relist by apply Hwf.
  change (d_lowWatermark (relist c l)) with (d_lowWatermark c).
  change (d_highWatermark (relist c l)) with (d_highWatermark c).
  change (d_map (relist c l)) with (map_of l).
  intros Hlh Hsize Hone Hk.
  assert (key ∉ keys_of l) as Hkl.
  { intros Hin%map_of_lookup_is_Some. rewrite Hk in Hin. by destruct Hin. }
  destruct l as [|e l]; [simpl in Hsize; lia|].
  assert (evictions c (length (e :: l)) = 1) as Hev.
  { unfold evictions, loop_evictions.
    destruct (N.of_nat (length (e :: l)) <? d_highWatermark c)%N eqn:E.
    - apply N.ltb_lt in E. lia.
    - simpl length in *. lia. }
  assert (kept c (e :: l) = l) as Hkept by (unfold kept; by rewrite Hev).
  assert (enforced c (e :: l) = invoke c (e_value e)) as Henf
    by (unfold enforced, evicted; by rewrite Hev).
  assert (key ∉ keys_of l) as Hkl'.
  { intros Hin. apply Hkl. by right. }
  set (e' := Entry (fresh_node (queue_of l)) key valuePtr).
  assert (wf (l ++ [e'])) as Hwf'.
  { apply wf_snoc; [by eapply wf_tail|done|apply fresh_node_queue_of]. }
  exists (e_key e), (e_value e), (pairs l),
         (relist (invoke c (e_value e)) (l ++ [e'])).
  split_and!.
  - by rewrite contents_relist.
  - rewrite insert_relist_absent by (done || by rewrite Hkept).
    by rewrite Henf, Hkept.
  - rewrite contents_relist by done. by rewrite pairs_app.
  - rewrite size_relist by apply Hwf'. rewrite length_app. simpl. lia.
  - change (d_invoked (relist ?c' (l ++ [e']))) with (d_invoked c').
    exact (invoke_invoked c (e_value e)).
Qed.

End FixedSize.

(** ** Instances of the further properties *)

Lemma popFront_law_witness :
  size (Cache_new LRU 3 4 : Cache nat nat nat) = 0%N
  ∧ popFront (Cache_new LRU 3 4 : Cache nat nat nat)
    = Ret (1%Z, Cache_new LRU 3 4)
  ∧ cache_inv two_entries
  ∧ (0 < size two_entries)%N
  ∧ ∃ n key v q c',
      d_queue two_entries = (n, key) :: q
      ∧ d_map two_entries !! key = Some (v, n)
      ∧ popFront two_entries = Ret (0%Z, c')
      ∧ d_queue c' = q
      ∧ d_map c' = delete key (d_map two_entries)
      ∧ (size c' + 1 = size two_entries)%N
      ∧ d_invoked c'
        = d_invoked two_entries
          ++ match d_postEvictionCallback two_entries with
             | Some f => [(f, v)]
             | None => []
             end
      ∧ cache_inv c'.
Proof.
  assert (size (Cache_new LRU 3 4 : Cache nat nat nat) = 0%N) as H0
    by reflexivity.
  assert (0 < size two_entries)%N as Hpos by (vm_compute; reflexivity).
  split_and!.
  - exact H0.
  - exact (proj1 popFront_law (Cache_new LRU 3 4) H0).
  - exact two_entries_inv.
  - exact Hpos.
  - exact (proj2 popFront_law two_entries two_entries_inv Hpos).
Defined.

Lemma tryGetValue_law_witness :
  cache_inv two_entries
  ∧ match d_map two_entries !! 7 with
    | None => tryGetValue two_entries 0 7 true = Ret (1%Z, 0, two_entries)
    | Some (v, n) =>
        ∃ q1 q2,
          d_queue two_entries = q1 ++ (n, 7) :: q2
          ∧ tryGetValue two_entries 0 7 true
            = Ret (0%Z, v,
                   match d_evictionPolicy two_entries, true with
                   | CacheEvictionPolicy.e_LRU, true =>
                       with_map_queue two_entries (d_map two_entries)
                                      (q1 ++ q2 ++ [(n, 7)])
                   | _, _ => two_entries
                   end)
    end.
Proof.
  split.
  - exact two_entries_inv.
  - exact (tryGetValue_law two_entries 0 7 true two_entries_inv).
Defined.

Lemma insert_new_below_high_witness :
  cache_inv two_entries
  ∧ (size two_entries < d_highWatermark two_entries)%N
  ∧ d_map two_entries !! 9 = None
  ∧ let n := fresh_node (d_queue two_entries) in
    let c' := with_map_queue two_entries
                (<[9 := (90, n)]> (d_map two_entries))
                (d_queue two_entries ++ [(n, 9)]) in
    insert two_entries 9 90 alloc_ok = Ret (returned, c')
    ∧ size c' = (size two_entries + 1)%N
    ∧ cache_inv c'.
Proof.
  assert (size two_entries < d_highWatermark two_entries)%N as Hlt
    by (vm_compute; reflexivity).
  assert (d_map two_entries !! 9 = None) as H9 by (vm_compute; reflexivity).
  split_and!.
  - exact two_entries_inv.
  - exact Hlt.
  - exact H9.
  - exact (insert_new_below_high two_entries 9 90 two_entries_inv Hlt H9).
Defined.


Lemma visit_records_witness :
  cache_inv two_entries
  ∧ Forall2 (λ kvp kv : nat * nat, kv.1 = kvp.1 ∧ Some kvp.2 = Some kv.2)
            (contents two_entries) [(7, 70); (8, 80)]
  ∧ visit Some two_entries (λ k v s, (false, s ++ [(k, v)])) []
    = Ret [(7, 70)]
  ∧ visit Some two_entries (λ k v s, (true, s ++ [(k, v)])) []
    = Ret [(7, 70); (8, 80)].
Proof.
  assert (Forall2 (λ kvp kv : nat * nat,
                     kv.1 = kvp.1 ∧ Some kvp.2 = Some kv.2)
                  (contents two_entries) [(7, 70); (8, 80)]) as Hv
    by (vm_compute; repeat constructor).
  split_and!.
  - exact two_entries_inv.
  - exact Hv.
  - exact (visit_records Some two_entries (λ _ _, false) _ []
             two_entries_inv Hv).
  - exact (visit_records Some two_entries (λ _ _, true) _ []
             two_entries_inv Hv).
Defined.

Lemma insert_contents_witness :
  cache_inv four_entries
  ∧ ∃ c' gone rest,
      insert four_entries 7 71 alloc_ok = Ret (returned, c')
      ∧ contents four_entries = gone ++ rest
      ∧ contents c' = filter (λ kv, kv.1 ≠ 7) rest ++ [(7, 71)]
      ∧ d_invoked c'
        = d_invoked four_entries
          ++ match d_postEvictionCallback four_entries with
             | Some f => (λ kv, (f, kv.2)) <$> gone
             | None => []
             end
      ∧ ((size four_entries < d_highWatermark four_entries)%N → gone = [])
      ∧ ((d_highWatermark four_entries ≤ size four_entries)%N →
         length rest
         = length (contents four_entries)
           `min` N.to_nat (N.pred (d_lowWatermark four_entries))).
Proof.
  split.
  - exact four_entries_inv.
  - exact (insert_contents four_entries 7 71 four_entries_inv).
Defined.

Lemma enforceHighWatermark_exact_witness :
  cache_inv four_entries
  ∧ (1 ≤ d_lowWatermark four_entries)%N
  ∧ (d_lowWatermark four_entries ≤ size four_entries)%N
  ∧ (d_highWatermark four_entries ≤ size four_entries)%N
  ∧ ∃ c1 gone,
      enforceHighWatermark four_entries = Ret c1
      ∧ contents four_entries = gone ++ contents c1
      ∧ (size c1 = d_lowWatermark four_entries - 1)%N
      ∧ d_invoked c1
        = d_invoked four_entries
          ++ match d_postEvictionCallback four_entries with
             | Some f => (λ kv, (f, kv.2)) <$> gone
             | None => []
             end
      ∧ cache_inv c1.
Proof.
  assert (1 ≤ d_lowWatermark four_entries)%N as H1
    by (vm_compute; discriminate).
  assert (d_lowWatermark four_entries ≤ size four_entries)%N as Hl
    by (vm_compute; discriminate).
  assert (d_highWatermark four_entries ≤ size four_entries)%N as Hh
    by (vm_compute; discriminate).
  split_and!.
  - exact four_entries_inv.
  - exact H1.
  - exact Hl.
  - exact Hh.
  - exact (enforceHighWatermark_exact four_entries four_entries_inv H1 Hl Hh).
Defined.

Lemma size_bounded_witness :
  reachable two_entries
  ∧ (1 ≤ d_lowWatermark two_entries)%N
  ∧ (d_lowWatermark two_entries ≤ d_highWatermark two_entries)%N
  ∧ (size two_entries ≤ d_highWatermark two_entries)%N.
Proof.
  assert (1 ≤ d_lowWatermark two_entries)%N as H1
    by (vm_compute; discriminate).
  assert (d_lowWatermark two_entries ≤ d_highWatermark two_entries)%N as Hl
    by (vm_compute; discriminate).
  split_and!.
  - exact two_entries_reachable.
  - exact H1.
  - exact Hl.
  - exact (size_bounded two_entries two_entries_reachable H1 Hl).
Defined.

Lemma insert_erase_roundtrip_witness :
  cache_inv two_entries
  ∧ (size two_entries < d_highWatermark two_entries)%N
  ∧ d_map two_entries !! 9 = None
  ∧ ∃ c1,
      insert two_entries 9 90 alloc_ok = Ret (returned, c1)
      ∧ erase c1 9 = Ret (0%Z, invoke two_entries 90).
Proof.
  assert (size two_entries < d_highWatermark two_entries)%N as Hlt
    by (vm_compute; reflexivity).
  assert (d_map two_entries !! 9 = None) as H9 by (vm_compute; reflexivity).
  split_and!.
  - exact two_entries_inv.
  - exact Hlt.
  - exact H9.
  - exact (insert_erase_roundtrip two_entries 9 90 two_entries_inv Hlt H9).
Defined.

Lemma erase_idempotent_witness :
  cache_inv two_entries
  ∧ ∃ rc c',
      erase two_entries 7 = Ret (rc, c')
      ∧ d_map c' !! 7 = None
      ∧ erase c' 7 = Ret (1%Z, c')
      ∧ ∀ value modify, tryGetValue c' value 7 modify = Ret (1%Z, value, c').
Proof.
  split.
  - exact two_entries_inv.
  - exact (erase_idempotent two_entries 7 two_entries_inv).
Defined.

Lemma default_cache_is_map_witness :
  (N.of_nat (length [(1, 10); (2, 20); (1, 11)]) ≤ 2 ^ 64 - 1)%N
  ∧ ∃ c : Cache nat nat nat,
      run (setPostEvictionCallback (Cache_default (2 ^ 64 - 1)) (Some 0))
          (insertions [(1, 10); (2, 20); (1, 11)])
      = Ret c
      ∧ d_invoked c = []
      ∧ fst <$> d_map c
        = foldl (λ m kv, <[kv.1 := kv.2]> m) ∅ [(1, 10); (2, 20); (1, 11)]
      ∧ (size c ≤ N.of_nat (length [(1, 10); (2, 20); (1, 11)]))%N.
Proof.
  assert (N.of_nat (length [(1, 10); (2, 20); (1, 11)]) ≤ 2 ^ 64 - 1)%N
    as Hlen by (vm_compute; discriminate).
  split.
  - exact Hlen.
  - exact (default_cache_is_map (2 ^ 64 - 1) (Some 0)
             [(1, 10); (2, 20); (1, 11)] Hlen).
Defined.

Lemma popFront_drains_witness :
  cache_inv two_entries
  ∧ ∃ c',
      run two_entries (replicate (N.to_nat (size two_entries)) call_popFront)
      = Ret c'
      ∧ d_map c' = ∅
      ∧ d_queue c' = []
      ∧ d_invoked c'
        = d_invoked two_entries
          ++ match d_postEvictionCallback two_entries with
             | Some f => (λ kv, (f, kv.2)) <$> contents two_entries
             | None => []
             end.
Proof.
  split.
  - exact two_entries_inv.
  - exact (popFront_drains two_entries two_entries_inv).
Defined.


Lemma setPostEvictionCallback_next_witness :
  cache_inv two_entries
  ∧ (0 < size two_entries)%N
  ∧ ∃ key v rest c',
      contents (setPostEvictionCallback two_entries (Some 5))
      = (key, v) :: rest
      ∧ contents two_entries = (key, v) :: rest
      ∧ popFront (setPostEvictionCallback two_entries (Some 5))
        = Ret (0%Z, c')
      ∧ contents c' = rest
      ∧ d_invoked c' = d_invoked two_entries ++ [(5, v)].
Proof.
  assert (0 < size two_entries)%N as Hpos by (vm_compute; reflexivity).
  split_and!.
  - exact two_entries_inv.
  - exact Hpos.
  - exact (setPostEvictionCallback_next two_entries (Some 5)
             two_entries_inv Hpos).
Defined.

Lemma insert_at_fixed_size_witness :
  cache_inv one_entry_full
  ∧ d_lowWatermark one_entry_full = d_highWatermark one_entry_full
  ∧ size one_entry_full = d_highWatermark one_entry_full
  ∧ (1 ≤ d_highWatermark one_entry_full)%N
  ∧ d_map one_entry_full !! 9 = None
  ∧ ∃ k0 v0 rest c',
      contents one_entry_full = (k0, v0) :: rest
      ∧ insert one_entry_full 9 90 alloc_ok = Ret (returned, c')
      ∧ contents c' = rest ++ [(9, 90)]
      ∧ size c' = size one_entry_full
      ∧ d_invoked c'
        = d_invoked one_entry_full
          ++ match d_postEvictionCallback one_entry_full with
             | Some f => [(f, v0)]
             | None => []
             end.
Proof.
  assert (d_lowWatermark one_entry_full = d_highWatermark one_entry_full)
    as Hlh by reflexivity.
  assert (size one_entry_full = d_highWatermark one_entry_full) as Hs
    by (vm_compute; reflexivity).
  assert (1 ≤ d_highWatermark one_entry_full)%N as H1
    by (vm_compute; discriminate).
  assert (d_map one_entry_full !! 9 = None) as H9
    by (vm_compute; reflexivity).
  split_and!.
  - exact one_entry_full_inv.
  - exact Hlh.
  - exact Hs.
  - exact H1.
  - exact H9.
  - exact (insert_at_fixed_size one_entry_full 9 90 one_entry_full_inv
             Hlh Hs H1 H9).
Defined.
